(** * ClaimEase: job orchestration and pipeline execution

    A shallow embedding of the orchestration core of the ClaimEase
    services: the job-creation handler of the API gateway
    ([services/api-gateway/main.py]) and the Celery worker
    ([services/worker/main.py]) that drains the intake queue and drives
    every job through the four remote stages.

    The Python functions are written as programs over a small set of
    effects (Redis commands, HTTP posts, clock, logging, task dispatch);
    an interpreter runs such a program against an explicit world, and a
    step relation interleaves several of them.

    The two queries of the gateway ([get_job_status], [list_jobs]) are
    programs of the same kind.  Of the services behind the stages, the
    functions that work on data alone are embedded as functions: the
    field matching, the FDF writer and the completion report of the
    form service ([services/form-service/main.py]) and the analysis of
    the referral package of the document service
    ([services/document-service/main.py]).

    What is taken for granted: Redis and the Celery broker answer every
    command (a connection failure is not modelled, a failing HTTP call
    is); the keys holding hashes ("job:...") and the key holding the
    queue ("processing_queue") do not collide, so the two kinds of
    values are kept in two maps; the byte strings Redis returns to the
    worker decode to the text the gateway wrote; JSON numbers are
    integers.  The answers of the remote stages, the clock and the
    identifier generator are left open: they are functions of the whole
    history, and the statements hold for all of them.  Text is ASCII
    where Python's [int] and [repr] read it; the order in which Redis
    answers [KEYS], and the text and pages PyMuPDF extracts, are left
    open as well. *)

From stdpp Require Import base gmap strings list fin_maps pretty relations.
From Stdlib Require Import ZArith Lia DecimalString Sorted.
From Stdlib Require Import Ascii.
From Stdlib Require PrimFloat FloatOps SpecFloat Uint63.

Open Scope Z_scope.

(** ** Python values and exceptions *)

(** The value [response.json()] yields.  [JNull] is Python's [None]. *)
#[local] Unset Elimination Schemes.
Inductive json : Type :=
| JNull
| JBool (b : bool)
| JNum (n : Z)
| JStr (s : string)
| JArr (items : list json)
| JObj (fields : list (string * json)).
#[local] Set Elimination Schemes.

(** Python truthiness, as used by [if not doc_response]. *)
Definition truthy (v : json) : bool :=
  match v with
  | JNull => false
  | JBool b => b
  | JNum n => negb (Z.eqb n 0)
  | JStr s => negb (String.eqb s "")
  | JArr items => match items with [] => false | _ => true end
  | JObj fields => match fields with [] => false | _ => true end
  end.

(** An exception: its class and what [str(e)] returns. *)
Record exn : Type := Exn { exn_class : string; exn_str : string }.

Inductive result (A : Type) : Type :=
| Ok (a : A)
| Err (e : exn).
Arguments Ok {A} a.
Arguments Err {A} e.

(** What [httpx] gives back for one [client.post(url)]: the call itself
    may raise (timeout, connection failure); otherwise the response
    object is described by what its two methods used here do. *)
Record response : Type := Response {
  raise_for_status : option exn;
  resp_json : result json
}.

Inductive http_outcome : Type :=
| PostRaises (e : exn)
| PostReturns (r : response).

(** ** Effects and programs *)

Inductive level : Type := INFO | ERROR.

Inductive eff : Type -> Type :=
| HSet (key : string) (mapping : list (string * string)) : eff unit
| HGetAll (key : string) : eff (gmap string string)
| LPush (queue value : string) : eff unit
| BRPop (queue : string) (timeout : Z) : eff (option (string * string))
| UtcNowIso : eff string
| Uuid4 : eff string
| HttpPost (url : string) (timeout : Z) : eff http_outcome
| Log (lvl : level) (msg : string) : eff unit
| Delay (job_id patient_name : string) : eff unit
| Sleep (secs : Z) : eff unit.

Inductive prog (R : Type) : Type :=
| Ret (r : R)
| Raise (e : exn)
| Vis {X : Type} (c : eff X) (k : X -> prog R).
Arguments Ret {R} r.
Arguments Raise {R} e.
Arguments Vis {R X} c k.

Fixpoint bind {A B : Type} (p : prog A) (f : A -> prog B) : prog B :=
  match p with
  | Ret a => f a
  | Raise e => Raise e
  | Vis c k => Vis c (fun x => bind (k x) f)
  end.

#[global] Instance prog_ret : MRet prog := @Ret.
#[global] Instance prog_bind : MBind prog := fun A B f p => bind p f.

Definition call {X : Type} (c : eff X) : prog X := Vis c Ret.

(** [try: body  except Exception as e: handler e]. *)
Fixpoint try_except {R : Type} (body : prog R) (handler : exn -> prog R) : prog R :=
  match body with
  | Ret r => Ret r
  | Raise e => handler e
  | Vis c k => Vis c (fun x => try_except (k x) handler)
  end.

(** ** The world: Redis, the Celery broker, and the trace of effects *)

Inductive event : Type :=
| EHSet (key : string) (mapping : list (string * string))
| EHGetAll (key : string)
| ELPush (queue value : string)
| EBRPop (queue : string) (popped : option string)
| ENow (stamp : string)
| EUuid (u : string)
| EPost (url : string) (out : http_outcome)
| ELog (lvl : level) (msg : string)
| EDelay (job_id patient_name : string)
| ESleep (secs : Z).

Record world : Type := World {
  hashes : gmap string (gmap string string);
  lists : gmap string (list string);
  tasks : list (string * string);
  trace : list event
}.

(** What lies outside the program: the remote stages, the clock and the
    identifier generator.  Each answer may depend on everything that
    has happened so far. *)
Record env : Type := Env {
  http : list event -> string -> http_outcome;
  utcnow_iso : list event -> string;
  uuid4 : list event -> string
}.

Definition hgetall (w : world) (key : string) : gmap string string :=
  default ∅ (hashes w !! key).

Definition lrange (w : world) (queue : string) : list string :=
  default [] (lists w !! queue).

(** [HSET key f1 v1 f2 v2 ...]: the fields are merged into the hash,
    which is created when absent. *)
Definition hset_fields (mapping : list (string * string)) (h : gmap string string)
  : gmap string string :=
  foldl (fun acc fv => <[fv.1 := fv.2]> acc) h mapping.

Definition emit (ev : event) (w : world) : world :=
  World (hashes w) (lists w) (tasks w) (trace w ++ [ev]).

Definition set_hash (key : string) (h : gmap string string) (w : world) : world :=
  World (<[key := h]> (hashes w)) (lists w) (tasks w) (trace w).

Definition set_list (queue : string) (l : list string) (w : world) : world :=
  World (hashes w) (<[queue := l]> (lists w)) (tasks w) (trace w).

Definition add_task (t : string * string) (w : world) : world :=
  World (hashes w) (lists w) (tasks w ++ [t]) (trace w).

(** The state change an effect leaves behind, read off its event. *)
Definition apply_event (ev : event) (w : world) : world :=
  match ev with
  | EHSet key mapping => set_hash key (hset_fields mapping (hgetall w key)) w
  | ELPush queue value => set_list queue (value :: lrange w queue) w
  | EBRPop queue (Some _) => set_list queue (removelast (lrange w queue)) w
  | EDelay job_id patient_name => add_task (job_id, patient_name) w
  | _ => w
  end.

(** The answer to an effect, and the event it is recorded as.  [BRPOP]
    takes the last element of the list ([LPUSH] adds at the front) and
    answers [None] when the list is empty until the timeout. *)
Definition answer (E : env) {X : Type} (c : eff X) (w : world) : X * event :=
  match c in eff X return X * event with
  | HSet key mapping => (tt, EHSet key mapping)
  | HGetAll key => (hgetall w key, EHGetAll key)
  | LPush queue value => (tt, ELPush queue value)
  | BRPop queue _ =>
      match last (lrange w queue) with
      | Some v => (Some (queue, v), EBRPop queue (Some v))
      | None => (None, EBRPop queue None)
      end
  | UtcNowIso => let stamp := utcnow_iso E (trace w) in (stamp, ENow stamp)
  | Uuid4 => let u := uuid4 E (trace w) in (u, EUuid u)
  | HttpPost url _ => let out := http E (trace w) url in (out, EPost url out)
  | Log lvl msg => (tt, ELog lvl msg)
  | Delay job_id patient_name => (tt, EDelay job_id patient_name)
  | Sleep secs => (tt, ESleep secs)
  end.

Definition record_event (w : world) (ev : event) : world :=
  emit ev (apply_event ev w).

Definition handle (E : env) {X : Type} (c : eff X) (w : world) : X * world :=
  let '(x, ev) := answer E c w in (x, record_event w ev).

(** Running one program to its end: how it ended, the world it left,
    and the events it added to the trace, oldest first. *)
Record outcome (R : Type) : Type := Outcome {
  res : result R;
  final : world;
  emitted : list event
}.
Arguments Outcome {R} res final emitted.
Arguments res {R} o.
Arguments final {R} o.
Arguments emitted {R} o.

Fixpoint run (E : env) {R : Type} (p : prog R) (w : world) : outcome R :=
  match p with
  | Ret r => Outcome (Ok r) w []
  | Raise e => Outcome (Err e) w []
  | Vis c k =>
      let '(x, w') := handle E c w in
      let o := run E (k x) w' in
      Outcome (res o) (final o) ((answer E c w).2 :: emitted o)
  end.

Definition replay (evs : list event) (w : world) : world :=
  foldl record_event w evs.

(** ** Python's built-ins on text and numbers

    Text is a sequence of bytes.  The functions below are Python's on
    ASCII text, which is what the gateway and the worker write: [int]
    and [repr] treat every byte above 127 as an ordinary printable
    character. *)

Module Python.

Definition code (c : ascii) : Z := Z.of_N (N_of_ascii c).

(** The characters [int] skips around a numeral: tab, line feed,
    vertical tab, form feed, carriage return and space. *)
Definition is_space (c : ascii) : bool :=
  let n := code c in (9 <=? n) && (n <=? 13) || (n =? 32).

Definition digit_value (c : ascii) : option Z :=
  let n := code c in if (48 <=? n) && (n <=? 57) then Some (n - 48) else None.

Fixpoint lstrip (s : string) : string :=
  match s with
  | String c s' => if is_space c then lstrip s' else s
  | EmptyString => EmptyString
  end.

(** The digits that follow the first one, [acc] being the value read so
    far.  One underscore may stand between two digits.  The result is
    the value and the text after the numeral. *)
Fixpoint more_digits (acc : Z) (s : string) : option (Z * string) :=
  match s with
  | EmptyString => Some (acc, EmptyString)
  | String c s' =>
      match digit_value c with
      | Some d => more_digits (acc * 10 + d) s'
      | None =>
          if Ascii.eqb c "_" then
            match s' with
            | String c' s'' =>
                match digit_value c' with
                | Some d => more_digits (acc * 10 + d) s''
                | None => None
                end
            | EmptyString => None
            end
          else Some (acc, s)
      end
  end.

Definition numeral (s : string) : option (Z * string) :=
  match s with
  | String c s' =>
      match digit_value c with
      | Some d => more_digits d s'
      | None => None
      end
  | EmptyString => None
  end.

(** A decimal integer literal: optional space, an optional sign, the
    numeral, optional space. *)
Definition int_literal (s : string) : option Z :=
  let s := lstrip s in
  let '(sign, s) :=
    match s with
    | String c s' =>
        if Ascii.eqb c "+" then (1, s')
        else if Ascii.eqb c "-" then (-1, s')
        else (1, s)
    | EmptyString => (1, s)
    end in
  match numeral s with
  | Some (n, rest) =>
      match lstrip rest with
      | EmptyString => Some (sign * n)
      | _ => None
      end
  | None => None
  end.

Definition double_quote : ascii := ascii_of_nat 34.

Definition hex_digit (n : Z) : ascii :=
  nth (Z.to_nat n) (String.list_ascii_of_string "0123456789abcdef") "0"%char.

Definition repr_char (quote c : ascii) : string :=
  if Ascii.eqb c quote || Ascii.eqb c "\" then String "\" (String c EmptyString)
  else if code c =? 9 then "\t"
  else if code c =? 10 then "\n"
  else if code c =? 13 then "\r"
  else if (code c <? 32) || (code c =? 127)
       then "\x" +:+ String (hex_digit (code c / 16))
                       (String (hex_digit (code c mod 16)) EmptyString)
  else String c EmptyString.

(** [repr(s)]: in single quotes, unless the text holds a single quote
    and no double quote. *)
Definition repr (s : string) : string :=
  let chars := String.list_ascii_of_string s in
  let quote :=
    if existsb (Ascii.eqb "'") chars && negb (existsb (Ascii.eqb double_quote) chars)
    then double_quote else "'"%char in
  String quote (String.concat "" (map (repr_char quote) chars) +:+ String quote EmptyString).

(** [int(s)] for a string [s] whose numeral stays within the
    interpreter's limit on digits; the message of the [ValueError]
    shows at most 200 characters of [repr(s)]. *)
Definition int (s : string) : result Z :=
  match int_literal s with
  | Some n => Ok n
  | None =>
      Err (Exn "ValueError"
             ("invalid literal for int() with base 10: " +:+ String.substring 0 200 (repr s)))
  end.

(** [s.split(sep)] for a separator that is not empty; [skip] counts the
    characters of a separator just matched that are still to be passed
    over. *)
Fixpoint split_go (sep : string) (skip : nat) (piece s : string) : list string :=
  match s with
  | EmptyString => [piece]
  | String c s' =>
      match skip with
      | S skip' => split_go sep skip' piece s'
      | O =>
          if String.prefix sep s
          then piece :: split_go sep (String.length sep - 1) EmptyString s'
          else split_go sep 0 (piece +:+ String c EmptyString) s'
      end
  end.

Definition split (sep s : string) : list string := split_go sep 0 EmptyString s.



(** [sub in s]. *)
Definition contains (sub s : string) : bool :=
  match String.index 0 sub s with Some _ => true | None => false end.

(** [float(n)] for the length [n] of a list; a Python float is an IEEE
    754 double. *)
Definition float_of_len (n : nat) : PrimFloat.float :=
  PrimFloat.of_uint63 (Uint63.of_Z (Z.of_nat n)).

(** [n * 2^e], rounded to the nearest integer, ties to the even one. *)
Definition scaled_round (n e : Z) : Z :=
  if 0 <=? e then n * 2 ^ e
  else
    let d := 2 ^ (- e) in
    let q := n / d in
    let r := n mod d in
    if 2 * r <? d then q
    else if d <? 2 * r then q + 1
    else if Z.even q then q else q + 1.

(** [format(x, '.1f')]: the decimal numeral with one digit after the
    point that is nearest to the exact value of [x]. *)
Definition format_1f (x : PrimFloat.float) : string :=
  match FloatOps.Prim2SF x with
  | SpecFloat.S754_nan => "nan"
  | SpecFloat.S754_infinity s => if s then "-inf" else "inf"
  | SpecFloat.S754_zero s => if s then "-0.0" else "0.0"
  | SpecFloat.S754_finite s m e =>
      let tenths := scaled_round (Z.pos m * 10) e in
      (if s then "-" else "") +:+ pretty (tenths / 10) +:+ "." +:+ pretty (tenths mod 10)
  end.

End Python.

(** ** The worker: [services/worker/main.py] *)

Module Worker.

Definition SERVICES : gmap string string :=
  list_to_map
    [("document", "http://document-service:8000");
     ("ocr", "http://ocr-service:8000");
     ("nlp", "http://nlp-service:8000");
     ("form", "http://form-service:8000")].

(** Names bound at the top level of the module, by its imports,
    assignments and [def]s. *)
Definition module_globals : list string :=
  ["Celery"; "httpx"; "asyncio"; "json"; "sync_redis"; "logging"; "datetime";
   "logger"; "celery_app"; "redis_client"; "SERVICES";
   "process_patient_pipeline"; "call_service"; "update_job_status";
   "consume_processing_queue"; "setup_periodic_tasks";
   "__name__"; "__doc__"; "__file__"; "__builtins__"].

(** Python's built-in functions and constants, and the exception
    classes a module can name without importing them. *)
Definition builtin_names : list string :=
  ["abs"; "aiter"; "all"; "anext"; "any"; "ascii"; "bin"; "bool"; "breakpoint";
   "bytearray"; "bytes"; "callable"; "chr"; "classmethod"; "compile"; "complex";
   "delattr"; "dict"; "dir"; "divmod"; "enumerate"; "eval"; "exec"; "filter";
   "float"; "format"; "frozenset"; "getattr"; "globals"; "hasattr"; "hash";
   "help"; "hex"; "id"; "input"; "int"; "isinstance"; "issubclass"; "iter";
   "len"; "list"; "locals"; "map"; "max"; "memoryview"; "min"; "next"; "object";
   "oct"; "open"; "ord"; "pow"; "print"; "property"; "range"; "repr";
   "reversed"; "round"; "set"; "setattr"; "slice"; "sorted"; "staticmethod";
   "str"; "sum"; "super"; "tuple"; "type"; "vars"; "zip"; "__import__";
   "True"; "False"; "None"; "Ellipsis"; "NotImplemented";
   "BaseException"; "Exception"; "ArithmeticError"; "AssertionError";
   "AttributeError"; "EOFError"; "ImportError"; "IndexError"; "KeyError";
   "KeyboardInterrupt"; "LookupError"; "MemoryError"; "NameError";
   "NotImplementedError"; "OSError"; "OverflowError"; "RuntimeError";
   "StopIteration"; "SyntaxError"; "SystemExit"; "TimeoutError"; "TypeError";
   "UnicodeDecodeError"; "ValueError"; "ZeroDivisionError"].

(** Evaluating a bare name inside a function of the module: globals,
    then builtins, else [NameError]. *)
Definition load_global (name : string) : prog unit :=
  if bool_decide (name ∈ module_globals) || bool_decide (name ∈ builtin_names)
  then Ret tt
  else Raise (Exn "NameError" ("name '" +:+ name +:+ "' is not defined")).

(** [bytes.decode()].  Redis hands the worker byte strings; identifiers
    and names are written by the gateway as text, and a [string] here is
    that same sequence of bytes. *)
Definition decode (b : string) : string := b.

Definition job_key (job_id : string) : string := "job:" +:+ job_id.

Definition update_job_status (job_id status : string) (progress : Z) : prog unit :=
  stamp ← call UtcNowIso;
  call (HSet (job_key job_id)
          [("status", status); ("progress", pretty progress); ("updated_at", stamp)]).

Definition call_service (service_name endpoint : string) : prog json :=
  try_except
    (match SERVICES !! service_name with
     | None => Raise (Exn "KeyError" ("'" +:+ service_name +:+ "'"))
     | Some base =>
         let url := base +:+ endpoint in
         out ← call (HttpPost url 300);
         match out with
         | PostRaises e => Raise e
         | PostReturns response =>
             match raise_for_status response with
             | Some e => Raise e
             | None =>
                 match resp_json response with
                 | Err e => Raise e
                 | Ok body => Ret body
                 end
             end
         end
     end)
    (fun e =>
       call (Log ERROR ("Error calling " +:+ service_name +:+ endpoint +:+ ": " +:+ exn_str e));;
       Ret JNull).

(** [process_patient_pipeline]: the [try] block, then the [except]
    block, which records the failure and re-raises. *)
Definition pipeline_try (job_id patient_name : string) : prog (list (string * string)) :=
  update_job_status job_id "processing" 10;;
  call (Log INFO ("Starting document analysis for " +:+ patient_name));;
  doc_response ← call_service "document" ("/analyze/" +:+ patient_name);
  (if negb (truthy doc_response)
   then Raise (Exn "Exception" "Document analysis failed") else Ret tt);;
  update_job_status job_id "processing" 25;;
  call (Log INFO ("Starting OCR processing for " +:+ patient_name));;
  ocr_response ← call_service "ocr" ("/extract/" +:+ patient_name);
  (if negb (truthy ocr_response)
   then Raise (Exn "Exception" "OCR processing failed") else Ret tt);;
  update_job_status job_id "processing" 50;;
  call (Log INFO ("Starting NLP processing for " +:+ patient_name));;
  nlp_response ← call_service "nlp" ("/analyze/" +:+ patient_name);
  (if negb (truthy nlp_response)
   then Raise (Exn "Exception" "NLP processing failed") else Ret tt);;
  update_job_status job_id "processing" 75;;
  call (Log INFO ("Starting form filling for " +:+ patient_name));;
  form_response ← call_service "form" ("/fill/" +:+ patient_name);
  (if negb (truthy form_response)
   then Raise (Exn "Exception" "Form filling failed") else Ret tt);;
  update_job_status job_id "completed" 100;;
  call (Log INFO ("Pipeline completed successfully for " +:+ patient_name));;
  stamp ← call UtcNowIso;
  Ret [("job_id", job_id); ("patient_name", patient_name);
       ("status", "completed"); ("completed_at", stamp)].

Definition pipeline_except (job_id patient_name : string) (e : exn)
  : prog (list (string * string)) :=
  let error_msg := exn_str e in
  call (Log ERROR ("Pipeline failed for " +:+ patient_name +:+ ": " +:+ error_msg));;
  stamp ← call UtcNowIso;
  call (HSet (job_key job_id)
          [("status", "failed"); ("error", error_msg); ("failed_at", stamp)]);;
  Raise e.

Definition process_patient_pipeline (job_id patient_name : string)
  : prog (list (string * string)) :=
  try_except (pipeline_try job_id patient_name) (pipeline_except job_id patient_name).

(** One turn of the [while True] loop of [consume_processing_queue]:
    the [try] block and its handler. *)
Definition consume_try_block : prog unit :=
  result ← call (BRPop "processing_queue" 10);
  match result with
  | None => Ret tt
  | Some (queue_name, job_id) =>
      let job_id := decode job_id in
      job_data ← call (HGetAll (job_key job_id));
      if bool_decide (job_data = ∅) then Ret tt
      else
        match job_data !! "patient_name" with
        | None => Raise (Exn "KeyError" "b'patient_name'")
        | Some name =>
            let patient_name := decode name in
            call (Delay job_id patient_name)
        end
  end.

Definition consume_except (e : exn) : prog unit :=
  call (Log ERROR ("Error consuming queue: " +:+ exn_str e));;
  load_global "time";;
  call (Sleep 5).

Definition consume_iteration : prog unit :=
  try_except consume_try_block consume_except.

(** The loop itself, unrolled [fuel] times.  It has no exit: [Ok tt]
    means the loop is still running when the fuel is spent, [Err e] that
    the exception [e] left the loop and ended the task. *)
Fixpoint consume_processing_queue (fuel : nat) : prog unit :=
  match fuel with
  | O => Ret tt
  | S fuel' => consume_iteration;; consume_processing_queue fuel'
  end.

End Worker.

(** ** The gateway: [services/api-gateway/main.py] *)

Module Gateway.

Definition job_key (job_id : string) : string := "job:" +:+ job_id.

Definition process_patient (patient_name : string) : prog (list (string * string)) :=
  try_except
    (job_id ← call Uuid4;
     stamp ← call UtcNowIso;
     call (HSet (job_key job_id)
             [("patient_name", patient_name); ("status", "pending");
              ("created_at", stamp); ("progress", "0")]);;
     call (LPush "processing_queue" job_id);;
     call (Log INFO ("Created processing job " +:+ job_id +:+ " for patient " +:+ patient_name));;
     Ret [("job_id", job_id); ("patient_name", patient_name);
          ("status", "submitted"); ("message", "Processing started")])
    (fun e =>
       call (Log ERROR ("Error creating processing job: " +:+ exn_str e));;
       Raise (Exn "HTTPException" ("500: " +:+ exn_str e))).

(** [HTTPException(status_code, detail)]; its text is the status code
    and the detail. *)
Definition HTTPException (status_code : Z) (detail : string) : exn :=
  Exn "HTTPException" (pretty status_code +:+ ": " +:+ detail).

(** [job_data.get(field)] as a JSON value: the text, or [None]. *)
Definition get (job_data : gmap string string) (field : string) : json :=
  match job_data !! field with
  | Some v => JStr v
  | None => JNull
  end.

(** [int(job_data.get("progress", 0))]: the number, or the exception
    [int] raises. *)
Definition progress_value (job_data : gmap string string) : result Z :=
  match job_data !! "progress" with
  | Some s => Python.int s
  | None => Ok 0
  end.

Definition progress_of (job_data : gmap string string) : prog Z :=
  match progress_value job_data with
  | Ok n => Ret n
  | Err e => Raise e
  end.

(** [job_data.get("error") if job_data.get("error") else None]. *)
Definition reported_error (job_data : gmap string string) : json :=
  match job_data !! "error" with
  | Some e => if String.eqb e "" then JNull else JStr e
  | None => JNull
  end.

Definition get_job_status (job_id : string) : prog (list (string * json)) :=
  try_except
    (job_data ← call (HGetAll (job_key job_id));
     if bool_decide (job_data = ∅) then Raise (HTTPException 404 "Job not found")
     else
       progress ← progress_of job_data;
       Ret [("job_id", JStr job_id);
            ("status", JStr (default "unknown" (job_data !! "status")));
            ("progress", JNum progress);
            ("patient_name", get job_data "patient_name");
            ("created_at", get job_data "created_at");
            ("error", reported_error job_data)])
    (fun e =>
       if String.eqb (exn_class e) "HTTPException" then Raise e
       else
         call (Log ERROR ("Error getting job status: " +:+ exn_str e));;
         Raise (HTTPException 500 (exn_str e))).

(** The body of the loop of [list_jobs] for one key. *)
Definition list_jobs_entry (key : string) : prog json :=
  job_data ← call (HGetAll key);
  job_id ← match Python.split ":" key !! 1%nat with
           | Some part => Ret part
           | None => Raise (Exn "IndexError" "list index out of range")
           end;
  progress ← progress_of job_data;
  Ret (JObj [("job_id", JStr job_id);
             ("patient_name", get job_data "patient_name");
             ("status", get job_data "status");
             ("progress", JNum progress);
             ("created_at", get job_data "created_at")]).

Fixpoint list_jobs_loop (job_keys : list string) (jobs : list json) : prog (list json) :=
  match job_keys with
  | [] => Ret jobs
  | key :: job_keys' =>
      entry ← list_jobs_entry key;
      list_jobs_loop job_keys' (jobs ++ [entry])
  end.

(** [list_jobs], from the answer [job_keys] of [KEYS job:*] on.  Redis
    lists keys in no particular order, so the answer is left open; what
    makes a list of keys an answer in a given world is said by
    [keys_answer] below. *)
Definition list_jobs (job_keys : list string) : prog (list (string * json)) :=
  try_except
    (jobs ← list_jobs_loop job_keys [];
     Ret [("jobs", JArr jobs)])
    (fun e =>
       call (Log ERROR ("Error listing jobs: " +:+ exn_str e));;
       Raise (HTTPException 500 (exn_str e))).


End Gateway.


(** * Observing a run *)

Definition job_record (w : world) (job_id : string) : gmap string string :=
  hgetall w (Worker.job_key job_id).

(** What the [try] block of [call_service] comes to for a given outcome
    of the post, and what the function then returns and logs. *)
Definition service_try (out : http_outcome) : result json :=
  match out with
  | PostRaises e => Err e
  | PostReturns r =>
      match raise_for_status r with
      | Some e => Err e
      | None => resp_json r
      end
  end.

Definition service_result (out : http_outcome) : json :=
  match service_try out with Ok body => body | Err _ => JNull end.

Definition service_log (service_name endpoint : string) (out : http_outcome) : list event :=
  match service_try out with
  | Ok _ => []
  | Err e =>
      [ELog ERROR ("Error calling " +:+ service_name +:+ endpoint +:+ ": " +:+ exn_str e)]
  end.

(** The executor takes a stage as successful when the value returned by
    [call_service] is truthy. *)
Definition stage_ok (out : http_outcome) : bool := truthy (service_result out).

(** The actions of a run: its writes to Redis hashes and its stage calls. *)
Definition is_action (ev : event) : bool :=
  match ev with EHSet _ _ | EPost _ _ => true | _ => false end.

Definition actions (evs : list event) : list event := List.filter is_action evs.

Definition stage_calls (evs : list event) : list (string * bool) :=
  omap (fun ev => match ev with EPost url out => Some (url, stage_ok out) | _ => None end) evs.

(** The value a mapping passed to [hset] gives to a field, if any. *)
Definition mapping_get (field : string) (mapping : list (string * string)) : option string :=
  foldl (fun acc fv => if String.eqb fv.1 field then Some fv.2 else acc) None mapping.

(** Reading back a decimal integer, as [int(...)] does on a stored progress. *)
Definition int_of_decimal (s : string) : option Z :=
  Z.of_int <$> NilZero.int_of_string s.

Definition progress_written (evs : list event) : list Z :=
  omap (fun ev =>
          match ev with
          | EHSet _ mapping => mapping_get "progress" mapping ≫= int_of_decimal
          | _ => None
          end) evs.

Definition status_write (job_id status : string) (progress : Z) (stamp : string) : event :=
  EHSet (Worker.job_key job_id)
    [("status", status); ("progress", pretty progress); ("updated_at", stamp)].

Definition failure_write (job_id error_msg stamp : string) : event :=
  EHSet (Worker.job_key job_id)
    [("status", "failed"); ("error", error_msg); ("failed_at", stamp)].

Definition stage_failed (msg : string) : exn := Exn "Exception" msg.

Definition document_url (n : string) : string :=
  "http://document-service:8000" +:+ "/analyze/" +:+ n.
Definition ocr_url (n : string) : string :=
  "http://ocr-service:8000" +:+ "/extract/" +:+ n.
Definition nlp_url (n : string) : string :=
  "http://nlp-service:8000" +:+ "/analyze/" +:+ n.
Definition form_url (n : string) : string :=
  "http://form-service:8000" +:+ "/fill/" +:+ n.

Definition stage_urls (n : string) : list string :=
  [document_url n; ocr_url n; nlp_url n; form_url n].

Definition prepend {R : Type} (evs : list event) (o : outcome R) : outcome R :=
  Outcome (res o) (final o) (evs ++ emitted o).

(** The events of one stage of the pipeline (checkpoint, log line,
    remote call, and the error line of [call_service] if the call
    failed), as the environment [E] makes them in the world [w]. *)
Definition stage_stamp (E : env) (w : world) : string := utcnow_iso E (trace w).

Definition stage_out (E : env) (j s : string) (p : Z) (m url : string) (w : world)
  : http_outcome :=
  http E
    (trace (replay [ENow (stage_stamp E w); status_write j s p (stage_stamp E w);
                    ELog INFO m] w))
    url.

Definition stage_events (E : env) (j s : string) (p : Z) (m name base endpoint : string)
    (w : world) : list event :=
  [ENow (stage_stamp E w); status_write j s p (stage_stamp E w); ELog INFO m;
   EPost (base +:+ endpoint) (stage_out E j s p m (base +:+ endpoint) w)]
  ++ service_log name endpoint (stage_out E j s p m (base +:+ endpoint) w).

(** The actions of one run of the pipeline, by the stage that fails, if
    any.  [ending msg tl] says what follows the failing stage call. *)
Inductive run_shape (j n : string) (ending : string -> list event -> Prop)
  : result (list (string * string)) -> list event -> Prop :=
| shape_document_fails s1 o1 tl :
    stage_ok o1 = false ->
    ending "Document analysis failed" tl ->
    run_shape j n ending (Err (stage_failed "Document analysis failed"))
      ([status_write j "processing" 10 s1; EPost (document_url n) o1] ++ tl)
| shape_ocr_fails s1 o1 s2 o2 tl :
    stage_ok o1 = true -> stage_ok o2 = false ->
    ending "OCR processing failed" tl ->
    run_shape j n ending (Err (stage_failed "OCR processing failed"))
      ([status_write j "processing" 10 s1; EPost (document_url n) o1;
        status_write j "processing" 25 s2; EPost (ocr_url n) o2] ++ tl)
| shape_nlp_fails s1 o1 s2 o2 s3 o3 tl :
    stage_ok o1 = true -> stage_ok o2 = true -> stage_ok o3 = false ->
    ending "NLP processing failed" tl ->
    run_shape j n ending (Err (stage_failed "NLP processing failed"))
      ([status_write j "processing" 10 s1; EPost (document_url n) o1;
        status_write j "processing" 25 s2; EPost (ocr_url n) o2;
        status_write j "processing" 50 s3; EPost (nlp_url n) o3] ++ tl)
| shape_form_fails s1 o1 s2 o2 s3 o3 s4 o4 tl :
    stage_ok o1 = true -> stage_ok o2 = true -> stage_ok o3 = true ->
    stage_ok o4 = false ->
    ending "Form filling failed" tl ->
    run_shape j n ending (Err (stage_failed "Form filling failed"))
      ([status_write j "processing" 10 s1; EPost (document_url n) o1;
        status_write j "processing" 25 s2; EPost (ocr_url n) o2;
        status_write j "processing" 50 s3; EPost (nlp_url n) o3;
        status_write j "processing" 75 s4; EPost (form_url n) o4] ++ tl)
| shape_completed s1 o1 s2 o2 s3 o3 s4 o4 s5 sc :
    stage_ok o1 = true -> stage_ok o2 = true -> stage_ok o3 = true ->
    stage_ok o4 = true ->
    run_shape j n ending
      (Ok [("job_id", j); ("patient_name", n); ("status", "completed");
           ("completed_at", sc)])
      [status_write j "processing" 10 s1; EPost (document_url n) o1;
       status_write j "processing" 25 s2; EPost (ocr_url n) o2;
       status_write j "processing" 50 s3; EPost (nlp_url n) o3;
       status_write j "processing" 75 s4; EPost (form_url n) o4;
       status_write j "completed" 100 s5].

Definition unhandled : string -> list event -> Prop := fun _ tl => tl = [].

Definition handled (j : string) : string -> list event -> Prop :=
  fun msg tl => exists stamp, tl = [failure_write j msg stamp].

(** * The system

    Requests reach the gateway, turns of the consumer loop begin, the
    Celery workers pick up dispatched tasks, and all of these run
    interleaved, one effect at a time, against the same Redis. *)

Record thread : Type := Thread {
  thread_result : Type;
  thread_prog : prog thread_result
}.

Record system : Type := System {
  sys_world : world;
  pool : list thread
}.

Definition take_task (i : nat) (w : world) : world :=
  World (hashes w) (lists w) (delete i (tasks w)) (trace w).

Inductive step (E : env) : system -> system -> Prop :=
| step_request w ts patient_name :
    step E (System w ts)
      (System w (ts ++ [Thread _ (Gateway.process_patient patient_name)]))
| step_consume w ts :
    step E (System w ts) (System w (ts ++ [Thread _ Worker.consume_iteration]))
| step_start w ts i job_id patient_name :
    tasks w !! i = Some (job_id, patient_name) ->
    step E (System w ts)
      (System (take_task i w)
         (ts ++ [Thread _ (Worker.process_patient_pipeline job_id patient_name)]))
| step_effect w ts i R X (c : eff X) (k : X -> prog R) :
    ts !! i = Some (Thread R (Vis c k)) ->
    step E (System w ts)
      (System (handle E c w).2 (<[i := Thread R (k (handle E c w).1)]> ts)).

Definition empty_world : world := World ∅ ∅ [] [].

Definition initial : system := System empty_world [].

(** The same steps as a function, driven by a schedule.  An action that
    does not apply (no such task, no such thread, a thread that has
    ended) leaves the system as it is. *)
Inductive action : Type :=
| Request (patient_name : string)
| Consume
| Start (i : nat)
| Effect (i : nat).

Definition act (E : env) (s : system) (a : action) : system :=
  match a with
  | Request patient_name =>
      System (sys_world s) (pool s ++ [Thread _ (Gateway.process_patient patient_name)])
  | Consume => System (sys_world s) (pool s ++ [Thread _ Worker.consume_iteration])
  | Start i =>
      match tasks (sys_world s) !! i with
      | Some (job_id, patient_name) =>
          System (take_task i (sys_world s))
            (pool s ++ [Thread _ (Worker.process_patient_pipeline job_id patient_name)])
      | None => s
      end
  | Effect i =>
      match pool s !! i with
      | Some t =>
          match thread_prog t with
          | Vis c k =>
              System (handle E c (sys_world s)).2
                (<[i := Thread (thread_result t) (k (handle E c (sys_world s)).1)]> (pool s))
          | _ => s
          end
      | None => s
      end
  end.

Definition schedule (E : env) (acts : list action) (s : system) : system :=
  foldl (act E) s acts.

(** The generator never hands out an identifier it has handed out before. *)
Definition fresh_uuids (E : env) : Prop :=
  forall t, EUuid (uuid4 E t) ∉ t.

(** ** Job records *)

Definition terminal (h : gmap string string) : Prop :=
  h !! "status" = Some "completed" \/ h !! "status" = Some "failed".

Definition has_error (h : gmap string string) : Prop :=
  exists e, h !! "error" = Some e /\ e <> "".

Definition coupled (h : gmap string string) : Prop :=
  h !! "status" = Some "failed" <-> has_error h.

Definition clean (h : gmap string string) : Prop :=
  h !! "error" = None /\ ~ terminal h.

(** Failed with its error, or not failed and without an error field. *)
Definition settled (h : gmap string string) : Prop :=
  (h !! "status" = Some "failed" /\ has_error h)
  \/ (h !! "status" <> Some "failed" /\ h !! "error" = None).

(** ** The token of a job

    A job identifier travels as a token: from the generator to the
    gateway request, onto the queue, to a turn of the consumer, into a
    task message, to the run of the pipeline.  [disc j p b Q QE] says
    that the program [p], started holding the token of [j] or not
    ([b]), only ever writes the record of [j] while it holds the token,
    hands the token on at most once, and gives it up with the write that
    concludes the job. *)

Inductive write_kind : Type := Advancing | Concluding | Forbidden.

Definition classify (mapping : list (string * string)) : write_kind :=
  match mapping_get "status" mapping, mapping_get "error" mapping with
  | Some s, None =>
      if String.eqb s "failed" then Forbidden
      else if String.eqb s "completed" then Concluding else Advancing
  | Some s, Some e =>
      if String.eqb s "failed" && negb (String.eqb e "") then Concluding else Forbidden
  | None, None => Advancing
  | None, Some _ => Forbidden
  end.

Definition queue_name : string := "processing_queue".

Definition permitted (j : string) {X : Type} (c : eff X) (b : bool) : Prop :=
  match c with
  | HSet key mapping =>
      key = Worker.job_key j -> b = true /\ classify mapping <> Forbidden
  | LPush queue value => queue = queue_name /\ (value = j -> b = true)
  | BRPop queue _ => queue = queue_name
  | Delay job_id _ => job_id = j -> b = true
  | _ => True
  end.

Definition possible (j : string) {X : Type} (c : eff X) : X -> bool -> Prop :=
  match c in eff X return X -> bool -> Prop with
  | BRPop _ _ => fun x b => forall queue, x = Some (queue, j) -> b = false
  | Uuid4 => fun x b => x = j -> b = false
  | _ => fun _ _ => True
  end.

Definition next (j : string) {X : Type} (c : eff X) : X -> bool -> bool :=
  match c in eff X return X -> bool -> bool with
  | HSet key mapping =>
      fun _ b =>
        if decide (key = Worker.job_key j)
        then match classify mapping with Concluding => false | _ => b end
        else b
  | LPush _ value => fun _ b => if decide (value = j) then false else b
  | Delay job_id _ => fun _ b => if decide (job_id = j) then false else b
  | BRPop _ _ =>
      fun x b =>
        match x with
        | Some (_, value) => if decide (value = j) then true else b
        | None => b
        end
  | Uuid4 => fun x b => if decide (x = j) then true else b
  | _ => fun _ b => b
  end.

Fixpoint disc (j : string) {R : Type} (p : prog R) (b : bool)
    (Q : R -> bool -> Prop) (QE : exn -> bool -> Prop) : Prop :=
  match p with
  | Ret r => Q r b
  | Raise e => QE e b
  | Vis c k =>
      permitted j c b /\
      forall x, possible j c x b -> disc j (k x) (next j c x b) Q QE
  end.

Definition disciplined (j : string) (b : bool) (t : thread) : Prop :=
  disc j (thread_prog t) b (fun _ _ => True) (fun _ _ => True).

(** The tokens of [j] at rest: on the queue and among the task messages. *)
Definition tokens_at_rest (j : string) (w : world) : nat :=
  count_occ String.string_dec (lrange w queue_name) j
  + count_occ String.string_dec (map fst (tasks w)) j.

Definition born (j : string) (w : world) : Prop := EUuid j ∈ trace w.

(** All the tokens of [j]: those at rest and the one a thread may hold. *)
Definition tokens (j : string) (s : system) (holder : option nat) : nat :=
  tokens_at_rest j (sys_world s) + match holder with Some _ => 1 | None => 0 end.

(** The invariant of the system for the job [j]; [holder] is the thread
    that holds its token, if one does. *)
Record token_inv (j : string) (s : system) (holder : option nat) : Prop := TokenInv {
  inv_threads :
    forall i t, pool s !! i = Some t -> disciplined j (bool_decide (holder = Some i)) t;
  inv_holder : forall i, holder = Some i -> (i < length (pool s))%nat;
  inv_single : (tokens j s holder <= 1)%nat;
  inv_born : tokens j s holder = 1%nat -> born j (sys_world s);
  inv_clean :
    tokens j s holder = 1%nat \/ ~ born j (sys_world s) ->
    clean (job_record (sys_world s) j);
  inv_settled : settled (job_record (sys_world s) j)
}.

(** Who holds the token after a thread [i] that held it or not ([b])
    has made a move after which it holds it or not ([b']). *)
Definition new_holder (holder : option nat) (i : nat) (b b' : bool) : option nat :=
  if b' then Some i else if b then None else holder.

(** * Scenarios

    Concrete environments and worlds on which the statements below are
    exercised. *)

Definition ok_response : http_outcome :=
  PostReturns (Response None (Ok (JObj [("status", JStr "success")]))).

(** A stage answering with an error whose message is "engine unavailable". *)
Definition engine_unavailable : http_outcome :=
  PostReturns
    (Response (Some (Exn "HTTPStatusError" "engine unavailable"))
       (Ok (JObj [("detail", JStr "engine unavailable")]))).

Definition clock (t : list event) : string := "T" +:+ pretty (length t).

Definition serial (t : list event) : string := "job-" +:+ pretty (length t).

Definition env_all_ok : env := Env (fun _ _ => ok_response) clock serial.

Definition env_ocr_down : env :=
  Env (fun _ url =>
         if String.eqb url (ocr_url "Jane Doe") then engine_unavailable else ok_response)
    clock serial.

(** Jane Doe's job: created by the gateway, then popped and dispatched
    by one turn of the consumer. *)
Definition jane_created : world :=
  final (run env_all_ok (Gateway.process_patient "Jane Doe") empty_world).

Definition jane_dispatched : world :=
  final (run env_all_ok Worker.consume_iteration jane_created).

Definition jane_completed : world :=
  final (run env_all_ok (Worker.process_patient_pipeline "job-0" "Jane Doe") jane_dispatched).

(** An identifier generator that hands out "job-0" again. *)
Definition env_collide : env := Env (fun _ _ => ok_response) clock (fun _ => "job-0").

(** A token whose record has lost its patient name. *)
Definition nameless_world : world :=
  World {[ "job:job-9" := {[ "status" := "processing" ]} ]}
        {[ "processing_queue" := ["job-9"] ]} [] [].


Definition name_error : exn := Exn "NameError" "name 'time' is not defined".

(** Jane Doe's job, failed at the ocr stage. *)
Definition jane_failed : world :=
  final (run env_ocr_down (Worker.process_patient_pipeline "job-0" "Jane Doe") jane_dispatched).

(** A generator of identifiers that are longer than all those handed
    out before, hence new. *)
Fixpoint filler (n : nat) : string :=
  match n with
  | O => ""
  | S n' => "x" +:+ filler n'
  end.

Fixpoint longest_uuid (t : list event) : nat :=
  match t with
  | [] => 0
  | EUuid u :: t' => Nat.max (String.length u) (longest_uuid t')
  | _ :: t' => longest_uuid t'
  end.

Definition fresh_uuid (t : list event) : string := filler (S (longest_uuid t)).

Definition env_fresh : env := Env (fun _ _ => ok_response) clock fresh_uuid.

(** One whole life of a job in the system: the request, a turn of the
    consumer, the task, each run to its end; then a second request. *)
Definition one_job : list action :=
  [Request "Jane Doe"] ++ replicate 5 (Effect 0) ++
  [Consume] ++ replicate 3 (Effect 1) ++
  [Start 0] ++ replicate 20 (Effect 2).

Definition next_request : list action :=
  [Request "John Roe"] ++ replicate 5 (Effect 3) ++ [Consume] ++ replicate 3 (Effect 4).

(** * Statements of the specification that the code does not meet *)

(** "Once status is completed or failed, no subsequent update changes
    status or progress, a second dispatch of the same job_id included." *)
Definition terminal_stability : Prop :=
  forall (E : env) (w : world) (job_id patient_name : string),
    terminal (job_record w job_id) ->
    let w' := final (run E (Worker.process_patient_pipeline job_id patient_name) w) in
    job_record w' job_id !! "status" = job_record w job_id !! "status" /\
    job_record w' job_id !! "progress" = job_record w job_id !! "progress".

(** "status == failed iff error is non-empty, for all job records at
    all times": in particular before and after any run of the
    executor. *)
Definition coupling_at_all_times : Prop :=
  forall (E : env) (w : world) (job_id patient_name : string),
    coupled (job_record w job_id) ->
    coupled (job_record
               (final (run E (Worker.process_patient_pipeline job_id patient_name) w))
               job_id).



(** "Create fails with AlreadyExists when a record for the job_id is
    already present, leaving the existing record unchanged." *)
Definition create_rejects_existing : Prop :=
  forall (E : env) (w : world) (patient_name : string),
    let o := run E (Gateway.process_patient patient_name) w in
    let job_id := uuid4 E (trace w) in
    hgetall w (Gateway.job_key job_id) <> ∅ ->
    (exists e, res o = Err e) /\
    hgetall (final o) (Gateway.job_key job_id) = hgetall w (Gateway.job_key job_id).

(** * The form service: [services/form-service/main.py]

    The functions of the form service that work on text alone. *)

Module FormService.

(** [any(keyword in field_name_lower for keyword in keywords)]. *)
Definition any_in (keywords : list string) (field_name_lower : string) : bool :=
  existsb (fun keyword => Python.contains keyword field_name_lower) keywords.

(** [form_data.get(key, '')]. *)
Definition get (form_data : gmap string string) (key : string) : string :=
  default "" (form_data !! key).

Definition get_field_value_for_pdftk (field_name_lower original_field_name : string)
    (form_data : gmap string string) : string :=
  if any_in ["t11"; "patient"; "name"; "member"; "beneficiary"] field_name_lower
  then get form_data "patient_name"
  else if any_in ["t12"; "medication"; "drug"; "skyrizi"; "product"; "therapy"; "treatment"]
            field_name_lower
  then get form_data "medication"
  else if any_in ["t13"; "dose"; "dosage"; "strength"; "mg"; "amount"] field_name_lower
  then get form_data "dosage"
  else if any_in ["t18"; "schedule"; "frequency"; "regimen"; "dosing"] field_name_lower
  then get form_data "schedule"
  else if any_in ["insurance"; "payer"; "plan"; "coverage"] field_name_lower
          && any_in ["t.2"; "t.6"; "t.7"; "t.3"; "t.8"] field_name_lower
  then get form_data "insurance"
  else if any_in ["diagnosis"; "condition"; "indication"; "clinical"] field_name_lower
          && any_in ["t.16"; "t.17"; "t.18"; "t.42"; "t.43"; "t.44"] field_name_lower
  then
    if Python.contains "t.42" field_name_lower
       || Python.contains "t.43" field_name_lower
       || Python.contains "t.44" field_name_lower
    then
      if Python.contains "t.42" field_name_lower then get form_data "medication"
      else if Python.contains "t.43" field_name_lower
              || Python.contains "t.44" field_name_lower
      then get form_data "dosage"
      else get form_data "diagnosis"
    else get form_data "diagnosis"
  else if any_in ["provider"; "prescriber"; "physician"; "doctor"] field_name_lower
  then get form_data "provider"
  else if any_in ["date"; "birth"; "dob"] field_name_lower
  then get form_data "date"
  else if any_in ["ndc"; "code"] field_name_lower
  then get form_data "ndc_code"
  else if any_in ["generic"; "active"] field_name_lower
  then get form_data "generic_name"
  else if any_in ["administration"; "route"; "delivery"] field_name_lower
  then get form_data "administration"
  else "".







Record completion_report : Type := CompletionReport {
  completion_rate : PrimFloat.float;
  filled_fields : list string;
  missing_fields : list string;
  total_extracted : nat;
  summary : string
}.

Definition required_fields : list string :=
  ["patient_name"; "medication"; "diagnosis"; "provider"; "insurance"].

(** [field in extracted_data and extracted_data[field]]. *)
Definition provided (extracted_data : gmap string string) (field : string) : bool :=
  match extracted_data !! field with
  | Some value => negb (String.eqb value "")
  | None => false
  end.

Definition generate_completion_report (extracted_data : gmap string string)
  : completion_report :=
  let lists :=
    foldl (fun lists field =>
             if provided extracted_data field
             then (lists.1 ++ [field], lists.2)
             else (lists.1, lists.2 ++ [field]))
      ([], []) required_fields in
  let filled_fields := lists.1 in
  let missing_fields := lists.2 in
  let completion_rate :=
    PrimFloat.mul
      (PrimFloat.div (Python.float_of_len (length filled_fields))
         (Python.float_of_len (length required_fields)))
      (Python.float_of_len 100) in
  CompletionReport completion_rate filled_fields missing_fields (size extracted_data)
    ("Completed " +:+ pretty (length filled_fields) +:+ "/"
     +:+ pretty (length required_fields) +:+ " required fields ("
     +:+ Python.format_1f completion_rate +:+ "%)").

End FormService.

(** * The document service: [services/document-service/main.py] *)

Module DocumentService.

(** What PyMuPDF hands over for one page: its text and the number of
    its images. *)
Record page (text : Type) : Type := Page {
  get_text : text;
  get_images : nat
}.
Arguments Page {text} get_text get_images.
Arguments get_text {text} p.
Arguments get_images {text} p.

Record page_info : Type := PageInfo {
  page_number : nat;
  has_text : bool;
  has_images : bool;
  text_length : nat;
  is_scanned : bool
}.

Record summary : Type := Summary {
  scanned_pages : nat;
  text_pages : nat;
  total_text_length : nat;
  requires_ocr : bool
}.

Record analysis : Type := Analysis {
  total_pages : nat;
  pages_info : list page_info;
  analysis_summary : summary
}.

Section Referral.
(** The text of a page is Python's [str]; what it is, and what
    [str.strip] and [len] do on it, is left open. *)
Context {text : Type} (strip : text -> text) (len : text -> nat).

Definition analyze_page (page_num : nat) (p : page text) : page_info :=
  PageInfo page_num
    (0 <? len (strip (get_text p)))%nat
    (0 <? get_images p)%nat
    (len (get_text p))
    (len (strip (get_text p)) <? 100)%nat.

(** [doc] is what reading the file with PyMuPDF comes to: an exception
    (of [fitz.open] or of a page), or the pages of the document.  The
    result is the analysis, or the dictionary with the one key
    "error". *)
Definition analyze_referral_package (doc : result (list (page text)))
  : analysis + string :=
  match doc with
  | Err e => inr (exn_str e)
  | Ok pages =>
      let infos := imap analyze_page pages in
      inl (Analysis (length pages) infos
             (Summary
                (length (List.filter is_scanned infos))
                (length (List.filter (fun p => negb (is_scanned p)) infos))
                (foldr Nat.add 0%nat (text_length <$> infos))
                (existsb is_scanned infos)))
  end.

End Referral.

End DocumentService.

(** * What a run may do *)

(** [performs P p]: every effect the program [p] can come to perform
    satisfies [P]. *)
Fixpoint performs {R : Type} (P : forall X : Type, eff X -> Prop) (p : prog R) : Prop :=
  match p with
  | Vis c k => P _ c /\ forall x, performs P (k x)
  | _ => True
  end.

(** The effects of a run of the pipeline for the job [j]: clock reads,
    log lines, posts with a timeout of 300 seconds, and writes of the
    five fields of progress and failure to the record of [j]. *)
Definition pipeline_effect (j : string) (X : Type) (c : eff X) : Prop :=
  match c with
  | UtcNowIso | Log _ _ => True
  | HttpPost _ timeout => timeout = 300
  | HSet key mapping =>
      key = Worker.job_key j /\
      forall f, is_Some (mapping_get f mapping) ->
                f ∈ ["status"; "progress"; "updated_at"; "error"; "failed_at"]
  | _ => False
  end.

(** The same, of the events it leaves in the trace. *)
Definition pipeline_event (j : string) (ev : event) : Prop :=
  match ev with
  | ENow _ | ELog _ _ | EPost _ _ => True
  | EHSet key mapping =>
      key = Worker.job_key j /\
      forall f, is_Some (mapping_get f mapping) ->
                f ∈ ["status"; "progress"; "updated_at"; "error"; "failed_at"]
  | _ => False
  end.

(** The effects of the consumer: pops from the intake queue with a
    timeout of 10 seconds, reads of hashes, dispatches and error lines. *)
Definition consumer_effect (X : Type) (c : eff X) : Prop :=
  match c with
  | BRPop queue timeout => queue = "processing_queue" /\ timeout = 10
  | HGetAll _ | Delay _ _ | Log ERROR _ => True
  | _ => False
  end.

Definition consumer_event (ev : event) : Prop :=
  match ev with
  | EBRPop queue _ => queue = "processing_queue"
  | EHGetAll _ | EDelay _ _ | ELog ERROR _ => True
  | _ => False
  end.

(** The effects of a query: reads of hashes and log lines. *)
Definition query_effect (X : Type) (c : eff X) : Prop :=
  match c with
  | HGetAll _ | Log _ _ => True
  | _ => False
  end.

Definition query_event (ev : event) : Prop :=
  match ev with
  | EHGetAll _ | ELog _ _ => True
  | _ => False
  end.

(** The events of one job creation in the world [w]. *)
Definition creation_events (E : env) (patient_name : string) (w : world) : list event :=
  let job_id := uuid4 E (trace w) in
  let stamp := utcnow_iso E (trace w ++ [EUuid job_id]) in
  [EUuid job_id; ENow stamp;
   EHSet (Gateway.job_key job_id)
     [("patient_name", patient_name); ("status", "pending");
      ("created_at", stamp); ("progress", "0")];
   ELPush "processing_queue" job_id;
   ELog INFO ("Created processing job " +:+ job_id +:+ " for patient " +:+ patient_name)].

(** The messages of the exceptions the pipeline raises. *)
Definition failure_messages : list string :=
  ["Document analysis failed"; "OCR processing failed"; "NLP processing failed";
   "Form filling failed"].



(** ** Reading an FDF file

    The side of the reader, after the syntax of literal strings in PDF:
    a backslash makes the character after it part of the text, a
    parenthesis that is not escaped opens or closes a pair, and the
    string ends at the parenthesis that closes the one it began with. *)











(** The keys of the form data that [get_field_value_for_pdftk] reads. *)
Definition keys_read : list string :=
  ["patient_name"; "medication"; "dosage"; "schedule"; "insurance"; "diagnosis";
   "provider"; "date"; "ndc_code"; "generic_name"; "administration"].

(** ** More scenarios *)




(** The request for Jane Doe's job, run to its end in the system: the
    job waits on the queue. *)
Definition jane_queued : list action :=
  [Request "Jane Doe"] ++ replicate 5 (Effect 0).

(** Stages that answer 200 with the empty JSON object. *)
Definition empty_body : http_outcome := PostReturns (Response None (Ok (JObj []))).

Definition env_empty_body : env := Env (fun _ _ => empty_body) clock serial.

(** * Reasoning about runs *)

Lemma trace_apply_event (ev : event) (w : world) :
  trace (apply_event ev w) = trace w.
Proof. by destruct ev as [| | | ? [?|] | | | | | |]. Qed.

Lemma trace_replay (evs : list event) (w : world) :
  trace (replay evs w) = trace w ++ evs.
Proof.
  unfold replay. revert w; induction evs as [| ev evs IH]; intros w; simpl.
  - by rewrite app_nil_r.
  - rewrite IH. simpl. rewrite trace_apply_event. by rewrite <- app_assoc.
Qed.

Lemma replay_app (evs evs' : list event) (w : world) :
  replay (evs ++ evs') w = replay evs' (replay evs w).
Proof. apply foldl_app. Qed.

Section RunLemmas.
Context (E : env).

Lemma handle_eq {X : Type} (c : eff X) (w : world) :
  handle E c w = ((answer E c w).1, record_event w (answer E c w).2).
Proof. unfold handle. by destruct (answer E c w). Qed.

(** The world a run ends in is the starting world with the emitted
    events replayed; in particular a run only appends to the trace. *)
Lemma run_final {R : Type} (p : prog R) (w : world) :
  final (run E p w) = replay (emitted (run E p w)) w.
Proof.
  revert w; induction p as [a | e | X c k IH]; intros w; simpl; try done.
  rewrite handle_eq. simpl. apply IH.
Qed.

Lemma run_trace {R : Type} (p : prog R) (w : world) :
  trace (final (run E p w)) = trace w ++ emitted (run E p w).
Proof. by rewrite run_final, trace_replay. Qed.

Lemma run_bind {A B : Type} (p : prog A) (f : A -> prog B) (w : world) :
  run E (p ≫= f) w =
  match res (run E p w) with
  | Ok a =>
      let o := run E (f a) (final (run E p w)) in
      Outcome (res o) (final o) (emitted (run E p w) ++ emitted o)
  | Err e => Outcome (Err e) (final (run E p w)) (emitted (run E p w))
  end.
Proof.
  change (p ≫= f) with (bind p f).
  revert w; induction p as [a | e | X c k IH]; intros w; simpl.
  - by destruct (run E (f a) w).
  - done.
  - rewrite handle_eq. rewrite IH.
    by destruct (res (run E (k (answer E c w).1) (record_event w (answer E c w).2))).
Qed.

Lemma run_try_except {R : Type} (p : prog R) (h : exn -> prog R) (w : world) :
  run E (try_except p h) w =
  match res (run E p w) with
  | Ok r => run E p w
  | Err e =>
      let o := run E (h e) (final (run E p w)) in
      Outcome (res o) (final o) (emitted (run E p w) ++ emitted o)
  end.
Proof.
  revert w; induction p as [a | e | X c k IH]; intros w; simpl.
  - done.
  - by destruct (run E (h e) w).
  - rewrite handle_eq. rewrite IH.
    destruct (res (run E (k (answer E c w).1) (record_event w (answer E c w).2)))
      eqn:Hres; simpl; by rewrite ?Hres.
Qed.

Lemma run_call {X : Type} (c : eff X) (w : world) :
  run E (call c) w =
  Outcome (Ok (answer E c w).1) (record_event w (answer E c w).2) [(answer E c w).2].
Proof. unfold call; simpl. by rewrite handle_eq. Qed.

End RunLemmas.

(** ** The worker's functions, run *)

Section WorkerRuns.
Import Worker.
Context (E : env).

Lemma run_update_job_status j s p w :
  run E (update_job_status j s p) w =
  let stamp := utcnow_iso E (trace w) in
  let evs := [ENow stamp; status_write j s p stamp] in
  Outcome (Ok tt) (replay evs w) evs.
Proof. reflexivity. Qed.

Lemma run_call_service name base endpoint w :
  SERVICES !! name = Some base ->
  run E (call_service name endpoint) w =
  let out := http E (trace w) (base +:+ endpoint) in
  let evs := EPost (base +:+ endpoint) out :: service_log name endpoint out in
  Outcome (Ok (service_result out)) (replay evs w) evs.
Proof.
  intros Hb. unfold call_service. rewrite Hb.
  unfold service_result, service_log, service_try. cbn.
  by destruct (http E (trace w) (base +:+ endpoint)) as [e | [[e1|] [body|e2]]].
Qed.

Lemma actions_service_log name endpoint out :
  actions (service_log name endpoint out) = [].
Proof. unfold service_log. by destruct (service_try out). Qed.

Lemma actions_app evs evs' : actions (evs ++ evs') = actions evs ++ actions evs'.
Proof. apply List.filter_app. Qed.

(** One stage of the pipeline: checkpoint, log line, remote call, test. *)
Lemma actions_stage_events j s p m name base endpoint w :
  actions (stage_events E j s p m name base endpoint w) =
  [status_write j s p (stage_stamp E w);
   EPost (base +:+ endpoint) (stage_out E j s p m (base +:+ endpoint) w)].
Proof. unfold stage_events. by rewrite actions_app, actions_service_log. Qed.

Lemma run_stage {R : Type} j s p m name base endpoint msg (rest : prog R) w :
  SERVICES !! name = Some base ->
  run E (update_job_status j s p;;
         call (Log INFO m);;
         response ← call_service name endpoint;
         (if negb (truthy response) then Raise (stage_failed msg) else Ret tt);;
         rest) w =
  let evs := stage_events E j s p m name base endpoint w in
  if stage_ok (stage_out E j s p m (base +:+ endpoint) w)
  then prepend evs (run E rest (replay evs w))
  else Outcome (Err (stage_failed msg)) (replay evs w) evs.
Proof.
  intros Hb.
  rewrite run_bind, run_update_job_status. cbn [res final emitted].
  rewrite run_bind, run_call. cbn [res final emitted answer fst snd].
  rewrite run_bind, (run_call_service _ _ _ _ Hb). cbn [res final emitted].
  unfold stage_ok, stage_events, stage_out, stage_stamp. simpl.
  match goal with |- context [truthy ?b] => destruct (truthy b) end; simpl.
  - reflexivity.
  - by rewrite app_nil_r.
Qed.

Lemma SERVICES_document : SERVICES !! "document" = Some "http://document-service:8000".
Proof. reflexivity. Qed.
Lemma SERVICES_ocr : SERVICES !! "ocr" = Some "http://ocr-service:8000".
Proof. reflexivity. Qed.
Lemma SERVICES_nlp : SERVICES !! "nlp" = Some "http://nlp-service:8000".
Proof. reflexivity. Qed.
Lemma SERVICES_form : SERVICES !! "form" = Some "http://form-service:8000".
Proof. reflexivity. Qed.

Ltac enter_stage Hsvc s o Hok :=
  rewrite (run_stage _ _ _ _ _ _ _ _ _ _ Hsvc); cbv zeta;
  match goal with
  | |- context [stage_ok (stage_out E ?j ?st ?p ?m ?u ?w)] =>
      destruct (stage_ok (stage_out E j st p m u w)) eqn:Hok;
      cbn [prepend res emitted];
      rewrite ?actions_app, !actions_stage_events;
      generalize dependent (stage_out E j st p m u w); intros o Hok;
      generalize (stage_stamp E w); intros s
  end.

Ltac next_world w :=
  match goal with |- context [run E _ ?w'] => generalize w'; clear w; intros w end.

Lemma run_pipeline_try j n w :
  run_shape j n unhandled (res (run E (pipeline_try j n) w))
    (actions (emitted (run E (pipeline_try j n) w))).
Proof.
  unfold pipeline_try.
  enter_stage SERVICES_document s1 o1 Hok1; cycle 1.
  { by apply (shape_document_fails j n _ s1 o1 []). }
  next_world w.
  enter_stage SERVICES_ocr s2 o2 Hok2; cycle 1.
  { by apply (shape_ocr_fails j n _ s1 o1 s2 o2 []). }
  next_world w.
  enter_stage SERVICES_nlp s3 o3 Hok3; cycle 1.
  { by apply (shape_nlp_fails j n _ s1 o1 s2 o2 s3 o3 []). }
  next_world w.
  enter_stage SERVICES_form s4 o4 Hok4; cycle 1.
  { by apply (shape_form_fails j n _ s1 o1 s2 o2 s3 o3 s4 o4 []). }
  next_world w.
  simpl. by apply shape_completed.
Qed.

Lemma run_shape_handled j n r acts :
  run_shape j n unhandled r acts ->
  match r with
  | Ok _ => run_shape j n (handled j) r acts
  | Err e =>
      forall stamp,
        run_shape j n (handled j) r (acts ++ [failure_write j (exn_str e) stamp])
  end.
Proof.
  unfold unhandled.
  destruct 1 as [? ? ? ? -> | ? ? ? ? ? ? ? -> | ? ? ? ? ? ? ? ? ? ? ->
                | ? ? ? ? ? ? ? ? ? ? ? ? ? -> |];
    try intros stamp; rewrite ?app_nil_r; simpl.
  - eapply (shape_document_fails j n _ _ _ [_]); unfold handled; eauto.
  - eapply (shape_ocr_fails j n _ _ _ _ _ [_]); unfold handled; eauto.
  - eapply (shape_nlp_fails j n _ _ _ _ _ _ _ [_]); unfold handled; eauto.
  - eapply (shape_form_fails j n _ _ _ _ _ _ _ _ _ [_]); unfold handled; eauto.
  - by apply shape_completed.
Qed.

(** Every run of the pipeline has one of the five shapes. *)
Lemma pipeline_actions j n w :
  run_shape j n (handled j)
    (res (run E (process_patient_pipeline j n) w))
    (actions (emitted (run E (process_patient_pipeline j n) w))).
Proof.
  unfold process_patient_pipeline. rewrite run_try_except.
  pose proof (run_shape_handled _ _ _ _ (run_pipeline_try j n w)) as Hshape.
  destruct (res (run E (pipeline_try j n) w)) as [v | e] eqn:Hres.
  - by rewrite Hres.
  - cbn [res emitted]. rewrite actions_app. apply Hshape.
Qed.

End WorkerRuns.


(** * The pipeline executor *)

Lemma pretty_checkpoints :
  pretty 10 = "10" /\ pretty 25 = "25" /\ pretty 50 = "50" /\
  pretty 75 = "75" /\ pretty 100 = "100".
Proof. by vm_compute. Qed.


Lemma stage_calls_actions (evs : list event) :
  stage_calls (actions evs) = stage_calls evs.
Proof.
  induction evs as [| ev evs IH]; [done|].
  destruct ev; simpl; unfold stage_calls in *; simpl; by rewrite ?IH.
Qed.

Lemma progress_written_actions (evs : list event) :
  progress_written (actions evs) = progress_written evs.
Proof.
  induction evs as [| ev evs IH]; [done|].
  destruct ev; simpl; unfold progress_written in *; simpl; by rewrite ?IH.
Qed.

Lemma stage_urls_NoDup (n : string) : NoDup (stage_urls n).
Proof.
  unfold stage_urls, document_url, ocr_url, nlp_url, form_url.
  repeat (apply NoDup_cons_2;
          [ rewrite list_elem_of_In; intros Hin; vm_compute in Hin; intuition congruence |]).
  apply NoDup_nil_2.
Qed.

(** C4.  Within one run the stage calls happen one after the other in
    the order document, ocr, nlp, form.  A call is one event of the
    trace and carries its outcome, so it is over before anything else
    of the run happens; the calls of a run are a prefix of that
    sequence; no stage is called twice; a call that failed is the last
    call of the run, and every call followed by another succeeded. *)
Theorem stages_sequential (E : env) (w : world) (job_id patient_name : string) :
  let o := run E (Worker.process_patient_pipeline job_id patient_name) w in
  let calls := stage_calls (emitted o) in
  map fst calls `prefix_of` stage_urls patient_name /\
  NoDup (map fst calls) /\
  (forall (i : nat) url, calls !! i = Some (url, false) -> length calls = S i) /\
  (forall (i : nat) url ok, calls !! i = Some (url, ok) -> (S i < length calls)%nat -> ok = true).
Proof.
  intros o calls. subst o calls. rewrite <- stage_calls_actions.
  assert (Hpre : forall l, l `prefix_of` stage_urls patient_name -> NoDup l).
  { intros l [k Hk]. pose proof (stage_urls_NoDup patient_name) as Hnd.
    rewrite Hk in Hnd. by apply NoDup_app in Hnd as [? _]. }
  destruct (pipeline_actions E job_id patient_name w)
    as [s1 o1 tl H1 [sf ->] | s1 o1 s2 o2 tl H1 H2 [sf ->]
       | s1 o1 s2 o2 s3 o3 tl H1 H2 H3 [sf ->]
       | s1 o1 s2 o2 s3 o3 s4 o4 tl H1 H2 H3 H4 [sf ->]
       | s1 o1 s2 o2 s3 o3 s4 o4 s5 sc H1 H2 H3 H4];
    simpl; rewrite ?H1, ?H2, ?H3, ?H4;
    (split; [by eexists|]);
    (split; [apply Hpre; by eexists|]);
    (split;
     [ intros [|[|[|[|i]]]] url Hi; simpl in Hi; by simplify_eq
     | intros [|[|[|[|i]]]] url ok Hi Hlt; simpl in Hi, Hlt; simplify_eq; try done; lia ]).
Qed.

(** C7.  The progress values one run writes, in the order it writes
    them, never decrease: they are an initial part of 10, 25, 50, 75,
    100, starting with 10, and the whole of it when the run completes.
    The write that records a failure carries no progress value. *)
Theorem progress_monotonic (E : env) (w : world) (job_id patient_name : string) :
  let o := run E (Worker.process_patient_pipeline job_id patient_name) w in
  let written := progress_written (emitted o) in
  StronglySorted Z.le written /\
  written `prefix_of` [10; 25; 50; 75; 100] /\
  head written = Some 10 /\
  (forall v, res o = Ok v -> written = [10; 25; 50; 75; 100]).
Proof.
  intros o written. subst o written. rewrite <- progress_written_actions.
  destruct (pipeline_actions E job_id patient_name w)
    as [s1 o1 tl H1 [sf ->] | s1 o1 s2 o2 tl H1 H2 [sf ->]
       | s1 o1 s2 o2 s3 o3 tl H1 H2 H3 [sf ->]
       | s1 o1 s2 o2 s3 o3 s4 o4 tl H1 H2 H3 H4 [sf ->]
       | s1 o1 s2 o2 s3 o3 s4 o4 s5 sc H1 H2 H3 H4];
    vm_compute progress_written;
    (split; [repeat (constructor; [| repeat constructor; lia]); constructor |]);
    (split; [by eexists|]); (split; [done|]); by intros v Hv.
Qed.

(** * Job records *)

Lemma mapping_get_foldl (f : string) (m : list (string * string)) (acc : option string) :
  foldl (fun a fv => if String.eqb fv.1 f then Some fv.2 else a) acc m =
  match mapping_get f m with Some v => Some v | None => acc end.
Proof.
  unfold mapping_get. revert acc.
  induction m as [| [f' v'] m IH]; intros acc; simpl; [done|].
  rewrite IH, (IH (if String.eqb f' f then Some v' else None)).
  by destruct (foldl _ None m), (String.eqb f' f).
Qed.

Lemma mapping_get_cons (f f' v' : string) (m : list (string * string)) :
  mapping_get f ((f', v') :: m) =
  match mapping_get f m with
  | Some v => Some v
  | None => if String.eqb f' f then Some v' else None
  end.
Proof. unfold mapping_get at 1; simpl. apply mapping_get_foldl. Qed.

(** A field after [hset]: the value the mapping gives it, else the
    value it had. *)
Lemma hset_fields_lookup (m : list (string * string)) (h : gmap string string) (f : string) :
  hset_fields m h !! f =
  match mapping_get f m with Some v => Some v | None => h !! f end.
Proof.
  revert h. induction m as [| [f' v'] m IH]; intros h; [done|].
  rewrite mapping_get_cons.
  change (hset_fields ((f', v') :: m) h) with (hset_fields m (<[f' := v']> h)).
  rewrite IH. destruct (mapping_get f m) as [v|]; [done|].
  destruct (String.eqb_spec f' f) as [-> | Hne].
  - by rewrite lookup_insert_eq.
  - by rewrite lookup_insert_ne.
Qed.

Lemma hgetall_record_event (w : world) (ev : event) (key : string) :
  hgetall (record_event w ev) key =
  match ev with
  | EHSet key' m =>
      if decide (key' = key) then hset_fields m (hgetall w key) else hgetall w key
  | _ => hgetall w key
  end.
Proof.
  destruct ev as [key' m | | | ? [?|] | | | | | |]; try done.
  unfold hgetall; simpl. destruct (decide (key' = key)) as [-> | Hne].
  - by rewrite lookup_insert_eq.
  - by rewrite lookup_insert_ne.
Qed.

(** Only the actions of a run matter to the hashes it leaves. *)
Lemma hgetall_replay_actions (evs : list event) (w : world) (key : string) :
  hgetall (replay evs w) key =
  foldl (fun h ev =>
           match ev with
           | EHSet key' m => if decide (key' = key) then hset_fields m h else h
           | _ => h
           end) (hgetall w key) (actions evs).
Proof.
  unfold replay. revert w.
  induction evs as [| ev evs IH]; intros w; simpl; [done|].
  rewrite IH, hgetall_record_event.
  destruct ev as [key' m | | | ? [?|] | | | | | |]; try done.
Qed.

Lemma job_record_final (E : env) {R : Type} (p : prog R) (w : world) (j : string) :
  job_record (final (run E p w)) j =
  foldl (fun h ev =>
           match ev with
           | EHSet key' m => if decide (key' = Worker.job_key j) then hset_fields m h else h
           | _ => h
           end) (job_record w j) (actions (emitted (run E p w))).
Proof. unfold job_record. by rewrite run_final, hgetall_replay_actions. Qed.

Lemma actions_idemp (evs : list event) : actions (actions evs) = actions evs.
Proof.
  induction evs as [| ev evs IH]; [done|].
  destruct ev; simpl; by rewrite ?IH.
Qed.

Lemma job_record_replay_snoc (w : world) (j : string) (evs : list event)
    (m : list (string * string)) :
  job_record (replay (evs ++ [EHSet (Worker.job_key j) m]) w) j =
  hset_fields m (job_record (replay evs w) j).
Proof.
  unfold job_record. rewrite replay_app. unfold replay at 1; simpl.
  rewrite hgetall_record_event. by rewrite decide_True.
Qed.

(** The record a run leaves when its actions end with a write [m] to
    the job's own key. *)
Lemma job_record_last_write (E : env) {R : Type} (p : prog R) (w : world) (j : string)
    (before : list event) (m : list (string * string)) :
  actions (emitted (run E p w)) = before ++ [EHSet (Worker.job_key j) m] ->
  job_record (final (run E p w)) j = hset_fields m (job_record (replay before w) j).
Proof.
  intros Hacts. rewrite <- job_record_replay_snoc.
  unfold job_record. rewrite run_final, !hgetall_replay_actions.
  rewrite <- Hacts. by rewrite actions_idemp.
Qed.

Ltac shape_cases H :=
  destruct H
    as [s1 o1 tl H1 [sf ->] | s1 o1 s2 o2 tl H1 H2 [sf ->]
       | s1 o1 s2 o2 s3 o3 tl H1 H2 H3 [sf ->]
       | s1 o1 s2 o2 s3 o3 s4 o4 tl H1 H2 H3 H4 [sf ->]
       | s1 o1 s2 o2 s3 o3 s4 o4 s5 sc H1 H2 H3 H4].

(** A failed run ends with the write of the failure. *)
Lemma failed_run_shape (E : env) (w : world) (j n : string) (e : exn) :
  res (run E (Worker.process_patient_pipeline j n) w) = Err e ->
  exists before stamp,
    actions (emitted (run E (Worker.process_patient_pipeline j n) w)) =
      before ++ [failure_write j (exn_str e) stamp] /\
    job_record (replay before w) j !! "progress" = pretty <$> last (progress_written before) /\
    exn_str e =
      nth (length (stage_calls before))
        [""; "Document analysis failed"; "OCR processing failed";
         "NLP processing failed"; "Form filling failed"] "" /\
    (exists url, last (stage_calls before) = Some (url, false)) /\
    (stage_calls before = [(document_url n, true); (ocr_url n, false)] ->
     last (progress_written before) = Some 25).
Proof.
  intros Hres.
  pose proof (pipeline_actions E j n w) as Hshape. rewrite Hres in Hshape.
  remember (Err e) as r eqn:Hr.
  remember (actions (emitted (run E (Worker.process_patient_pipeline j n) w))) as acts.
  shape_cases Hshape; simplify_eq.
  all: eexists _, sf; split; [reflexivity|].
  all: unfold job_record; rewrite hgetall_replay_actions.
  all: cbn [actions List.filter is_action status_write failure_write foldl app].
  all: rewrite ?decide_True by reflexivity.
  all: split; [rewrite hset_fields_lookup; reflexivity|].
  all: unfold stage_calls; cbn [omap list_omap]; rewrite ?H1, ?H2, ?H3, ?H4.
  all: split; [reflexivity|]; split; [by eexists|].
  all: intros Hcalls; simplify_eq; reflexivity.
Qed.

(** C6.  When a run fails, its last action is a write of exactly the
    three fields status, error and failed_at; every other field of the
    record, progress among them, keeps the value it had just before, so
    progress stays at the last checkpoint written: 25 when ocr fails
    after document succeeded. *)
Theorem failure_freezes_progress (E : env) (w : world) (job_id patient_name : string)
    (e : exn) :
  let o := run E (Worker.process_patient_pipeline job_id patient_name) w in
  res o = Err e ->
  exists before stamp,
    actions (emitted o) =
      before ++ [EHSet (Worker.job_key job_id)
                   [("status", "failed"); ("error", exn_str e); ("failed_at", stamp)]] /\
    (forall f, f ∉ ["status"; "error"; "failed_at"] ->
               job_record (final o) job_id !! f =
               job_record (replay before w) job_id !! f) /\
    job_record (final o) job_id !! "progress" = pretty <$> last (progress_written before) /\
    (stage_calls (emitted o) = [(document_url patient_name, true); (ocr_url patient_name, false)] ->
     job_record (final o) job_id !! "progress" = Some "25").
Proof.
  intros o Hres. subst o.
  destruct (failed_run_shape E w job_id patient_name e Hres)
    as (before & stamp & Hacts & Hprog & _ & _ & Hocr).
  exists before, stamp. split; [exact Hacts|].
  rewrite (job_record_last_write _ _ _ _ _ _ Hacts).
  assert (Hframe : forall f, f ∉ ["status"; "error"; "failed_at"] ->
            hset_fields [("status", "failed"); ("error", exn_str e); ("failed_at", stamp)]
              (job_record (replay before w) job_id) !! f =
            job_record (replay before w) job_id !! f).
  { intros f Hf. rewrite hset_fields_lookup.
    rewrite !mapping_get_cons. change (mapping_get f []) with (@None string).
    assert (Hne : "status" <> f /\ "error" <> f /\ "failed_at" <> f).
    { repeat split; intros <-; apply Hf; rewrite list_elem_of_In; simpl; tauto. }
    destruct Hne as (Hs & He & Hf').
    apply String.eqb_neq in Hs, He, Hf'. by rewrite Hs, He, Hf'. }
  split; [exact Hframe|].
  assert (Hp : "progress" ∉ ["status"; "error"; "failed_at"]).
  { rewrite list_elem_of_In; simpl; intuition congruence. }
  split.
  - by rewrite Hframe.
  - intros Hcalls. rewrite Hframe, Hprog by done.
    rewrite Hocr; [done|].
    rewrite <- stage_calls_actions, Hacts in Hcalls.
    unfold stage_calls in *. rewrite omap_app in Hcalls. simpl in Hcalls.
    by rewrite app_nil_r in Hcalls.
Qed.

Lemma failure_freezes_progress_witness :
  res (run env_ocr_down (Worker.process_patient_pipeline "job-0" "Jane Doe") jane_dispatched)
    = Err (stage_failed "OCR processing failed") /\
  job_record
    (final (run env_ocr_down (Worker.process_patient_pipeline "job-0" "Jane Doe")
              jane_dispatched)) "job-0" !! "progress" = Some "25".
Proof.
  split; [by vm_compute|].
  destruct (failure_freezes_progress env_ocr_down jane_dispatched "job-0" "Jane Doe"
              (stage_failed "OCR processing failed"))
    as (before & stamp & _ & _ & _ & Hocr); [by vm_compute|].
  apply Hocr. by vm_compute.
Defined.




(** * The queue consumer *)

(** One pass through the [try] block of the loop. *)
Lemma run_consume_try_block (E : env) (w : world) :
  run E Worker.consume_try_block w =
  match last (lrange w "processing_queue") with
  | None =>
      Outcome (Ok tt) (replay [EBRPop "processing_queue" None] w)
        [EBRPop "processing_queue" None]
  | Some token =>
      let seen := [EBRPop "processing_queue" (Some token);
                   EHGetAll (Worker.job_key token)] in
      let job_data := hgetall w (Worker.job_key token) in
      if bool_decide (job_data = ∅) then Outcome (Ok tt) (replay seen w) seen
      else
        match job_data !! "patient_name" with
        | None => Outcome (Err (Exn "KeyError" "b'patient_name'")) (replay seen w) seen
        | Some name =>
            Outcome (Ok tt) (replay (seen ++ [EDelay token name]) w)
              (seen ++ [EDelay token name])
        end
  end.
Proof.
  unfold Worker.consume_try_block.
  rewrite run_bind, run_call. cbn [res final emitted answer].
  destruct (last (lrange w "processing_queue")) as [token|]; cbn [fst snd]; [|done].
  rewrite run_bind, run_call. cbn [res final emitted answer fst snd Worker.decode].
  rewrite hgetall_record_event.
  unfold Worker.decode.
  destruct (bool_decide (hgetall w (Worker.job_key token) = ∅)); [done|].
  destruct (hgetall w (Worker.job_key token) !! "patient_name") as [name|]; [|done].
  by rewrite run_call.
Qed.




Lemma load_global_time : Worker.load_global "time" = Raise name_error.
Proof. by vm_compute. Qed.

(** The handler of the consumer loop, after any [try] block. *)
Lemma run_consume_except (E : env) (body : prog unit) (w : world) (e : exn) :
  res (run E body w) = Err e ->
  let o := run E (try_except body Worker.consume_except) w in
  res o = Err name_error /\
  emitted o =
    emitted (run E body w) ++ [ELog ERROR ("Error consuming queue: " +:+ exn_str e)].
Proof.
  intros Hres o. subst o. rewrite run_try_except, Hres.
  unfold Worker.consume_except. rewrite load_global_time. by split.
Qed.

(** C10.  The handler of the consumer loop calls [time.sleep(5)], and
    neither the module nor the builtins bind the name [time].  So the
    handler, whatever exception it is handed and in whatever world,
    ends by raising [NameError]; and whenever the [try] block of a turn
    raises, the turn logs the exception and raises that [NameError], no
    sleep takes place, and the loop, however many turns it had left,
    ends there with it. *)
Theorem consumer_handler_name_error (E : env) (w : world) (e : exn) :
  res (run E Worker.consume_try_block w) = Err e ->
  let o := run E Worker.consume_iteration w in
  ("time" ∉ Worker.module_globals ++ Worker.builtin_names) /\
  (forall e' w', res (run E (Worker.consume_except e') w') = Err name_error) /\
  res o = Err name_error /\
  (forall secs, ESleep secs ∉ emitted o) /\
  forall fuel,
    res (run E (Worker.consume_processing_queue (S fuel)) w) = Err name_error /\
    emitted (run E (Worker.consume_processing_queue (S fuel)) w) = emitted o.
Proof.
  intros Hres o. subst o.
  destruct (run_consume_except E Worker.consume_try_block w e Hres) as [Hr Hem].
  fold Worker.consume_iteration in Hr, Hem.
  split.
  { rewrite list_elem_of_In. vm_compute. intuition discriminate. }
  split.
  { intros e' w'. unfold Worker.consume_except. by rewrite load_global_time. }
  split; [exact Hr|]. split.
  - intros secs. rewrite Hem. rewrite elem_of_app, list_elem_of_singleton.
    intros [Hin | Heq]; [|discriminate Heq].
    revert Hin. rewrite run_consume_try_block.
    destruct (last (lrange w "processing_queue")) as [tok|]; cbv zeta;
      [destruct (bool_decide (hgetall w (Worker.job_key tok) = ∅));
       [|destruct (hgetall w (Worker.job_key tok) !! "patient_name")]|];
      cbn [emitted app]; rewrite !list_elem_of_In; simpl; intuition discriminate.
  - intros fuel. cbn [Worker.consume_processing_queue].
    rewrite run_bind, Hr. by cbn [res emitted].
Qed.

Lemma consumer_handler_name_error_witness :
  res (run env_all_ok Worker.consume_try_block nameless_world)
    = Err (Exn "KeyError" "b'patient_name'") /\
  res (run env_all_ok (Worker.consume_processing_queue 3) nameless_world)
    = Err name_error.
Proof.
  split; [by vm_compute|].
  by destruct (consumer_handler_name_error env_all_ok nameless_world
                 (Exn "KeyError" "b'patient_name'"))
    as (_ & _ & _ & _ & Hloop); [by vm_compute | apply (Hloop 2%nat)].
Defined.

(** * Job creation *)

(** C8, as the code has it.  Creating a job never fails: under the
    identifier it has just generated, the gateway merges the fields
    patient_name, status=pending, created_at=now and progress=0 into
    whatever hash is stored there, pushes the identifier on the queue
    and answers "submitted".  When no record was stored under the
    identifier, the record it leaves is exactly those four fields. *)
Theorem create_writes_pending (E : env) (w : world) (patient_name : string) :
  let o := run E (Gateway.process_patient patient_name) w in
  let job_id := uuid4 E (trace w) in
  let now := utcnow_iso E (trace w ++ [EUuid job_id]) in
  let created :=
    [("patient_name", patient_name); ("status", "pending");
     ("created_at", now); ("progress", "0")] in
  res o = Ok [("job_id", job_id); ("patient_name", patient_name);
              ("status", "submitted"); ("message", "Processing started")] /\
  hgetall (final o) (Gateway.job_key job_id) =
    hset_fields created (hgetall w (Gateway.job_key job_id)) /\
  (hgetall w (Gateway.job_key job_id) = ∅ ->
   hgetall (final o) (Gateway.job_key job_id) = list_to_map created) /\
  lrange (final o) "processing_queue" = job_id :: lrange w "processing_queue".
Proof.
  intros o job_id now created. subst o.
  unfold Gateway.process_patient. rewrite run_try_except.
  cbn [mbind prog_bind bind call run handle answer res final emitted fst snd].
  fold job_id. change (trace (record_event w (EUuid job_id))) with (trace w ++ [EUuid job_id]).
  fold now. fold created.
  split; [done|].
  rewrite !hgetall_record_event. rewrite decide_True by done.
  split; [done|]. split.
  - intros ->. apply map_eq; intros f. rewrite hset_fields_lookup.
    unfold created. rewrite !mapping_get_cons.
    change (mapping_get f []) with (@None string).
    cbn [list_to_map foldr fst snd curry].
    destruct (String.eqb_spec "progress" f) as [<- | Hp]; [by vm_compute|].
    destruct (String.eqb_spec "created_at" f) as [<- | Hc]; [by vm_compute|].
    destruct (String.eqb_spec "status" f) as [<- | Hs]; [by vm_compute|].
    destruct (String.eqb_spec "patient_name" f) as [<- | Hn]; [by vm_compute|].
    by rewrite !lookup_insert_ne.
  - unfold lrange; simpl. by rewrite lookup_insert_eq.
Qed.

Lemma create_writes_pending_witness :
  hgetall empty_world (Gateway.job_key "job-0") = ∅ /\
  hgetall jane_created (Gateway.job_key "job-0") =
    list_to_map [("patient_name", "Jane Doe"); ("status", "pending");
                 ("created_at", "T1"); ("progress", "0")].
Proof.
  split; [by vm_compute|].
  by destruct (create_writes_pending env_all_ok empty_world "Jane Doe")
    as (_ & _ & Hfresh & _); [apply Hfresh; vm_compute].
Defined.

(** C8, as stated, fails.  The generator hands out "job-0", under which
    Jane Doe's completed job is stored: creation goes through, and the
    record is now John Roe's, pending at progress 0. *)
Lemma create_overwrites_existing :
  let o := run env_collide (Gateway.process_patient "John Roe") jane_completed in
  uuid4 env_collide (trace jane_completed) = "job-0" /\
  hgetall jane_completed (Gateway.job_key "job-0") !! "status" = Some "completed" /\
  res o = Ok [("job_id", "job-0"); ("patient_name", "John Roe");
              ("status", "submitted"); ("message", "Processing started")] /\
  hgetall (final o) (Gateway.job_key "job-0") !! "status" = Some "pending" /\
  hgetall (final o) (Gateway.job_key "job-0") !! "patient_name" = Some "John Roe" /\
  ~ create_rejects_existing.
Proof.
  intros o.
  assert (Hold : hgetall jane_completed (Gateway.job_key "job-0") !! "status"
                 = Some "completed") by (vm_compute; reflexivity).
  assert (Hres : res o = Ok [("job_id", "job-0"); ("patient_name", "John Roe");
                             ("status", "submitted"); ("message", "Processing started")])
    by (vm_compute; reflexivity).
  split; [reflexivity|]. split; [exact Hold|]. split; [exact Hres|].
  split; [vm_compute; reflexivity|]. split; [vm_compute; reflexivity|].
  intros Hclaim.
  destruct (Hclaim env_collide jane_completed "John Roe") as [[e He] _].
  - intros Hempty. change (uuid4 env_collide (trace jane_completed)) with "job-0" in Hempty.
    rewrite Hempty in Hold. clear Hres Hempty. by rewrite lookup_empty in Hold.
  - fold o in He. rewrite Hres in He. clear Hold Hres. discriminate He.
Qed.

(** * The token discipline

    A small program logic for [disc], and the four programs of the
    system checked against it. *)

Section DiscLogic.
Context (j : string).

Lemma disc_mono {R : Type} (p : prog R) (b : bool)
    (Q Q' : R -> bool -> Prop) (QE QE' : exn -> bool -> Prop) :
  (forall r b', Q r b' -> Q' r b') ->
  (forall e b', QE e b' -> QE' e b') ->
  disc j p b Q QE -> disc j p b Q' QE'.
Proof.
  intros HQ HQE. revert b.
  induction p as [r | e | X c k IH]; intros b; simpl; eauto.
  intros [Hp Hk]. split; [done|]. intros x Hx. apply IH, Hk, Hx.
Qed.

Lemma disc_bind {A B : Type} (p : prog A) (f : A -> prog B) (b : bool)
    (Q : B -> bool -> Prop) (QE : exn -> bool -> Prop) :
  disc j p b (fun a b' => disc j (f a) b' Q QE) QE ->
  disc j (p ≫= f) b Q QE.
Proof.
  change (p ≫= f) with (bind p f). revert b.
  induction p as [r | e | X c k IH]; intros b; simpl; eauto.
  intros [Hp Hk]. split; [done|]. intros x Hx. apply IH, Hk, Hx.
Qed.

Lemma disc_try_except {R : Type} (p : prog R) (h : exn -> prog R) (b : bool)
    (Q : R -> bool -> Prop) (QE : exn -> bool -> Prop) :
  disc j p b Q (fun e b' => disc j (h e) b' Q QE) ->
  disc j (try_except p h) b Q QE.
Proof.
  revert b.
  induction p as [r | e | X c k IH]; intros b; simpl; eauto.
  intros [Hp Hk]. split; [done|]. intros x Hx. apply IH, Hk, Hx.
Qed.

Lemma disc_call {X : Type} (c : eff X) (b : bool)
    (Q : X -> bool -> Prop) (QE : exn -> bool -> Prop) :
  permitted j c b ->
  (forall x, possible j c x b -> Q x (next j c x b)) ->
  disc j (call c) b Q QE.
Proof. intros Hp Hk. simpl. by split. Qed.

End DiscLogic.

Lemma job_key_inj (a b : string) : Worker.job_key a = Worker.job_key b -> a = b.
Proof. unfold Worker.job_key. intros H. by simplify_eq/=. Qed.

Lemma classify_status_write (s p x : string) :
  classify [("status", s); ("progress", p); ("updated_at", x)] =
  if String.eqb s "failed" then Forbidden
  else if String.eqb s "completed" then Concluding else Advancing.
Proof. reflexivity. Qed.

Lemma classify_failure (e x : string) :
  e <> "" ->
  classify [("status", "failed"); ("error", e); ("failed_at", x)] = Concluding.
Proof.
  intros He. apply String.eqb_neq in He.
  change (classify [("status", "failed"); ("error", e); ("failed_at", x)])
    with (if true && negb (String.eqb e "") then Concluding else Forbidden).
  by rewrite He.
Qed.

Lemma classify_created (n x : string) :
  classify [("patient_name", n); ("status", "pending"); ("created_at", x); ("progress", "0")]
  = Advancing.
Proof. reflexivity. Qed.

Section WorkerDiscipline.
Import Worker.
Context (j : string).

Lemma disc_update_job_status_other (j' s : string) (p : Z) (b : bool) Q QE :
  j' <> j -> Q tt b -> disc j (update_job_status j' s p) b Q QE.
Proof.
  intros Hne HQ. unfold update_job_status.
  apply disc_bind, disc_call; [done|]. intros stamp _.
  apply disc_call.
  - intros Hkey. by apply job_key_inj in Hkey.
  - intros [] _. cbn [next]. rewrite decide_False; [done|].
    intros Hkey. by apply job_key_inj in Hkey.
Qed.

Lemma disc_update_job_status_own (s : string) (p : Z) Q QE :
  s <> "failed" ->
  Q tt (negb (String.eqb s "completed")) ->
  disc j (update_job_status j s p) true Q QE.
Proof.
  intros Hs HQ. apply String.eqb_neq in Hs. unfold update_job_status.
  apply disc_bind, disc_call; [done|]. intros stamp _.
  apply disc_call.
  - intros _. split; [done|]. rewrite classify_status_write, Hs.
    by destruct (String.eqb s "completed").
  - intros [] _. cbn [next]. rewrite decide_True by done.
    rewrite classify_status_write, Hs. by destruct (String.eqb s "completed").
Qed.

Lemma disc_call_service (name endpoint : string) (b : bool) Q QE :
  (forall r, Q r b) -> disc j (call_service name endpoint) b Q QE.
Proof.
  intros HQ. unfold call_service. apply disc_try_except.
  destruct (SERVICES !! name) as [base|].
  - apply disc_bind, disc_call; [done|]. intros out _. cbn [next].
    destruct out as [e1 | [[e2|] [body|e3]]]; cbn [disc raise_for_status resp_json];
      try (apply disc_bind, disc_call; [done|]; intros [] _; apply HQ).
    apply HQ.
  - cbn [disc]. apply disc_bind, disc_call; [done|]. intros [] _. apply HQ.
Qed.


(** The stage test: a raise that leaves the token where it is. *)
Lemma disc_stage_test (response : json) (msg : string) (b : bool) Q (QE : exn -> bool -> Prop) :
  QE (Exn "Exception" msg) b -> Q tt b ->
  disc j (if negb (truthy response) then Raise (Exn "Exception" msg) else Ret tt) b Q QE.
Proof. intros HE HQ. by destruct (negb (truthy response)). Qed.

Lemma disc_pipeline_try_other (j' n : string) (b : bool) Q (QE : exn -> bool -> Prop) :
  j' <> j -> (forall r, Q r b) -> (forall e, QE e b) ->
  disc j (pipeline_try j' n) b Q QE.
Proof.
  intros Hne HQ HE. unfold pipeline_try.
  repeat first
    [ apply disc_bind
    | apply disc_update_job_status_other; [done|]
    | apply disc_call_service; intros ?
    | apply disc_stage_test; [apply HE|]
    | apply disc_call; [done|]; intros ? _; cbn [next] ].
  apply HQ.
Qed.

Lemma disc_pipeline_try_own (n : string) Q (QE : exn -> bool -> Prop) :
  (forall r, Q r false) -> (forall e, exn_str e <> "" -> QE e true) ->
  disc j (pipeline_try j n) true Q QE.
Proof.
  intros HQ HE. unfold pipeline_try.
  repeat first
    [ apply disc_bind
    | apply disc_update_job_status_own; [done|]; cbn [String.eqb Ascii.eqb Bool.eqb negb]
    | apply disc_call_service; intros ?
    | apply disc_stage_test; [by apply HE|]
    | apply disc_call; [done|]; intros ? _; cbn [next] ].
  apply HQ.
Qed.

Lemma disc_pipeline_except_other (j' n : string) (e : exn) (b : bool) Q (QE : exn -> bool -> Prop) :
  j' <> j -> QE e b -> disc j (pipeline_except j' n e) b Q QE.
Proof.
  intros Hne HE. unfold pipeline_except.
  apply disc_bind, disc_call; [done|]. intros [] _. cbn [next].
  apply disc_bind, disc_call; [done|]. intros stamp _. cbn [next].
  apply disc_bind, disc_call.
  - intros Hkey. by apply job_key_inj in Hkey.
  - intros [] _. cbn [next]. rewrite decide_False; [done|].
    intros Hkey. by apply job_key_inj in Hkey.
Qed.

Lemma disc_pipeline_except_own (n : string) (e : exn) Q (QE : exn -> bool -> Prop) :
  exn_str e <> "" -> QE e false -> disc j (pipeline_except j n e) true Q QE.
Proof.
  intros He HE. unfold pipeline_except.
  apply disc_bind, disc_call; [done|]. intros [] _. cbn [next].
  apply disc_bind, disc_call; [done|]. intros stamp _. cbn [next].
  apply disc_bind, disc_call.
  - intros _. split; [done|]. by rewrite classify_failure.
  - intros [] _. cbn [next]. rewrite decide_True by done.
    by rewrite classify_failure.
Qed.

Lemma pipeline_passive (j' n : string) :
  j' <> j -> disciplined j false (Thread _ (process_patient_pipeline j' n)).
Proof.
  intros Hne. unfold disciplined, process_patient_pipeline; cbn [thread_prog].
  apply disc_try_except, disc_pipeline_try_other; [done..|].
  intros e. by apply disc_pipeline_except_other.
Qed.

Lemma pipeline_holder (n : string) :
  disciplined j true (Thread _ (process_patient_pipeline j n)).
Proof.
  unfold disciplined, process_patient_pipeline; cbn [thread_prog].
  apply disc_try_except, disc_pipeline_try_own; [done|].
  intros e He. by apply disc_pipeline_except_own.
Qed.

Lemma consume_iteration_passive :
  disciplined j false (Thread _ consume_iteration).
Proof.
  unfold disciplined, consume_iteration, consume_try_block; cbn [thread_prog thread_result].
  apply disc_try_except, disc_bind, disc_call; [done|].
  assert (Hexcept : forall e b, disc j (consume_except e) b
                      (fun _ _ => True) (fun _ _ => True)).
  { intros e b. unfold consume_except.
    apply disc_bind, disc_call; [done|]. intros [] _.
    apply disc_bind. rewrite load_global_time. done. }
  intros [[q token]|] _; cbn [next disc]; [|done].
  unfold decode. apply disc_bind, disc_call; [done|]. intros job_data _. cbn [next].
  destruct (bool_decide (job_data = ∅)); [done|].
  destruct (job_data !! "patient_name") as [name|]; [|apply Hexcept].
  apply disc_call.
  - intros ->. by rewrite decide_True.
  - done.
Qed.

End WorkerDiscipline.

Lemma gateway_job_key (job_id : string) : Gateway.job_key job_id = Worker.job_key job_id.
Proof. reflexivity. Qed.

Lemma process_patient_passive (j n : string) :
  disciplined j false (Thread _ (Gateway.process_patient n)).
Proof.
  unfold disciplined, Gateway.process_patient; cbn [thread_prog].
  apply disc_try_except, disc_bind, disc_call; [done|].
  intros u _. cbn [next]. rewrite gateway_job_key.
  apply disc_bind, disc_call; [done|]. intros stamp _. cbn [next].
  destruct (decide (u = j)) as [-> | Hne].
  - apply disc_bind, disc_call.
    { intros _. by rewrite classify_created. }
    intros [] _. cbn [next]. rewrite decide_True, classify_created by done.
    apply disc_bind, disc_call; [done|]. intros [] _. cbn [next].
    apply disc_bind, disc_call; [done|]. done.
  - apply disc_bind, disc_call.
    { intros Hkey. by apply job_key_inj in Hkey. }
    intros [] _. cbn [next]. rewrite decide_False by (intros Hkey; by apply job_key_inj in Hkey).
    apply disc_bind, disc_call; [done|]. intros [] _. cbn [next].
    apply disc_bind, disc_call; [done|]. done.
Qed.

(** ** What one effect does to the world *)

Lemma trace_record_event (w : world) (ev : event) :
  trace (record_event w ev) = trace w ++ [ev].
Proof. unfold record_event; simpl. by rewrite trace_apply_event. Qed.

Lemma born_record_event (j : string) (w : world) (ev : event) :
  born j (record_event w ev) <-> born j w \/ ev = EUuid j.
Proof.
  unfold born. rewrite trace_record_event, elem_of_app, list_elem_of_singleton.
  split; intros [?|?]; auto.
Qed.

Lemma job_record_record_event (j : string) (w : world) (ev : event) :
  job_record (record_event w ev) j =
  match ev with
  | EHSet key m =>
      if decide (key = Worker.job_key j) then hset_fields m (job_record w j)
      else job_record w j
  | _ => job_record w j
  end.
Proof. unfold job_record. apply hgetall_record_event. Qed.

Lemma lrange_record_event (w : world) (ev : event) (q : string) :
  lrange (record_event w ev) q =
  match ev with
  | ELPush q' v => if decide (q' = q) then v :: lrange w q else lrange w q
  | EBRPop q' (Some _) => if decide (q' = q) then removelast (lrange w q) else lrange w q
  | _ => lrange w q
  end.
Proof.
  destruct ev as [| | q' v | q' [v|] | | | | | |]; try done;
    unfold lrange; simpl; destruct (decide (q' = q)) as [-> | Hne];
    by rewrite ?lookup_insert_eq, ?lookup_insert_ne.
Qed.

Lemma tasks_record_event (w : world) (ev : event) :
  tasks (record_event w ev) =
  match ev with
  | EDelay job_id n => tasks w ++ [(job_id, n)]
  | _ => tasks w
  end.
Proof. by destruct ev as [| | | ? [?|] | | | | | |]. Qed.

Lemma count_occ_removelast (l : list string) (v j : string) :
  last l = Some v ->
  count_occ String.string_dec l j =
  (count_occ String.string_dec (removelast l) j + if decide (v = j) then 1 else 0)%nat.
Proof.
  intros Hlast. destruct (decide (l = [])) as [-> | Hne]; [done|].
  destruct (exists_last Hne) as (l' & v' & ->).
  rewrite last_snoc in Hlast. simplify_eq.
  rewrite removelast_last, count_occ_app. simpl.
  destruct (String.string_dec v j), (decide (v = j)); done.
Qed.

Lemma count_occ_zero_last (l : list string) (j : string) :
  count_occ String.string_dec l j = 0%nat -> last l <> Some j.
Proof.
  intros Hc Hlast. rewrite (count_occ_removelast _ _ _ Hlast) in Hc.
  rewrite decide_True in Hc by done. lia.
Qed.

(** ** The invariant is kept *)

Lemma new_holder_self (holder : option nat) (i : nat) (b' : bool) :
  bool_decide (new_holder holder i (bool_decide (holder = Some i)) b' = Some i) = b'.
Proof.
  unfold new_holder. destruct b'; [by rewrite bool_decide_eq_true_2|].
  destruct (decide (holder = Some i)) as [Hh | Hh].
  - rewrite (bool_decide_eq_true_2 (holder = Some i)) by done.
    by rewrite bool_decide_eq_false_2.
  - rewrite (bool_decide_eq_false_2 (holder = Some i)) by done.
    by rewrite bool_decide_eq_false_2.
Qed.

Lemma new_holder_other (holder : option nat) (i i' : nat) (b' : bool) :
  i' <> i ->
  (bool_decide (holder = Some i) = false -> b' = true -> holder = None) ->
  bool_decide (new_holder holder i (bool_decide (holder = Some i)) b' = Some i')
  = bool_decide (holder = Some i').
Proof.
  intros Hne Hnone. unfold new_holder.
  destruct (decide (holder = Some i)) as [Hh | Hh].
  - rewrite (bool_decide_eq_true_2 (holder = Some i)) by done. subst holder.
    destruct b'; apply bool_decide_ext; naive_solver.
  - rewrite (bool_decide_eq_false_2 (holder = Some i)) in * by done.
    destruct b'; [|done]. rewrite Hnone by done.
    apply bool_decide_ext; naive_solver.
Qed.

Section Preservation.
Context (E : env) (Hfresh : fresh_uuids E) (j : string).

Lemma inv_spawn (w : world) (ts : list thread) (holder : option nat) (t : thread) :
  token_inv j (System w ts) holder ->
  disciplined j false t ->
  token_inv j (System w (ts ++ [t])) holder.
Proof.
  intros [Hth Hho Hsi Hbo Hcl Hco] Ht. split; try done; cbn [pool] in *.
  - intros i t' Hl. apply lookup_app_Some in Hl as [Hl | [Hlen Hl]]; [by apply Hth|].
    apply list_lookup_singleton_Some in Hl as [_ <-].
    rewrite bool_decide_eq_false_2; [done|].
    intros Hh. apply Hho in Hh. lia.
  - intros i Hh. rewrite length_app. apply Hho in Hh. lia.
Qed.

Lemma threads_updated (ts : list thread) (holder : option nat) (i : nat)
    (R X : Type) (c : eff X) (k : X -> prog R) (x : X) :
  (forall i' t, ts !! i' = Some t -> disciplined j (bool_decide (holder = Some i')) t) ->
  ts !! i = Some (Thread R (Vis c k)) ->
  let b := bool_decide (holder = Some i) in
  let b' := next j c x b in
  possible j c x b ->
  (b = false -> b' = true -> holder = None) ->
  forall i' t,
    <[i := Thread R (k x)]> ts !! i' = Some t ->
    disciplined j (bool_decide (new_holder holder i b b' = Some i')) t.
Proof.
  intros Hth Hi b b' Hposs Hnone i' t Hl.
  destruct (decide (i' = i)) as [-> | Hne].
  - rewrite list_lookup_insert_eq in Hl by (by eapply lookup_lt_Some).
    simplify_eq. subst b. rewrite new_holder_self.
    destruct (Hth _ _ Hi) as [_ Hk]. by apply Hk.
  - rewrite list_lookup_insert_ne in Hl by done.
    subst b. rewrite new_holder_other by done. by apply Hth.
Qed.


Lemma tokens_at_rest_record_event (w : world) (ev : event) :
  tokens_at_rest j (record_event w ev) =
  match ev with
  | ELPush q v =>
      if decide (q = queue_name)
      then (tokens_at_rest j w + if decide (v = j) then 1 else 0)%nat
      else tokens_at_rest j w
  | EBRPop q (Some _) =>
      if decide (q = queue_name)
      then (count_occ String.string_dec (removelast (lrange w queue_name)) j
            + count_occ String.string_dec (map fst (tasks w)) j)%nat
      else tokens_at_rest j w
  | EDelay job_id _ => (tokens_at_rest j w + if decide (job_id = j) then 1 else 0)%nat
  | _ => tokens_at_rest j w
  end.
Proof.
  unfold tokens_at_rest. rewrite lrange_record_event, tasks_record_event.
  destruct ev as [| | q v | q [v|] | | | | | job_id n |]; try done.
  - destruct (decide (q = queue_name)); [|done]. simpl.
    destruct (String.string_dec v j), (decide (v = j)); try done; lia.
  - by destruct (decide (q = queue_name)).
  - rewrite map_app, count_occ_app. simpl.
    destruct (String.string_dec job_id j), (decide (job_id = j)); try done; lia.
Qed.

Lemma clean_settled (h : gmap string string) : clean h -> settled h.
Proof.
  intros [Herr Hterm]. right. split; [|done].
  intros Hf. apply Hterm. by right.
Qed.

Lemma settled_coupled (h : gmap string string) : settled h -> coupled h.
Proof.
  intros [[Hf He] | [Hf He]]; split; try done.
  intros (e & Hsome & _). congruence.
Qed.

Lemma hset_advancing (m : list (string * string)) (h : gmap string string) :
  classify m = Advancing -> clean h -> clean (hset_fields m h).
Proof.
  unfold classify, clean, terminal. rewrite !hset_fields_lookup.
  intros Hc [Herr Hterm]. revert Hc.
  destruct (mapping_get "status" m) as [s|], (mapping_get "error" m) as [e|];
    try done.
  - by destruct (s =? "failed")%string, (negb (e =? "")%string).
  - destruct (String.eqb_spec s "failed") as [|Hf]; [done|].
    destruct (String.eqb_spec s "completed") as [|Hd]; [done|].
    intros _. split; [done|]. intros [?|?]; congruence.
Qed.

Lemma hset_concluding (m : list (string * string)) (h : gmap string string) :
  classify m = Concluding -> clean h -> settled (hset_fields m h).
Proof.
  unfold classify, clean, settled, has_error. rewrite !hset_fields_lookup.
  intros Hc [Herr Hterm]. revert Hc.
  destruct (mapping_get "status" m) as [s|], (mapping_get "error" m) as [e|];
    try done.
  - destruct (String.eqb_spec s "failed") as [-> | Hf]; [|done].
    destruct (String.eqb_spec e "") as [|He]; [done|].
    intros _. left. split; [done | by exists e].
  - destruct (String.eqb_spec s "failed") as [|Hf]; [done|].
    intros _. right. split; [congruence | done].
Qed.

(** The bookkeeping common to every effect. *)
Lemma inv_after_effect (w : world) (ts : list thread) (holder : option nat) (i : nat)
    (R X : Type) (c : eff X) (k : X -> prog R) (x : X) (w' : world) :
  token_inv j (System w ts) holder ->
  ts !! i = Some (Thread R (Vis c k)) ->
  forall b : bool,
  b = bool_decide (holder = Some i) ->
  let b' := next j c x b in
  possible j c x b ->
  (b = false -> b' = true -> holder = None) ->
  let n' := (tokens_at_rest j w' + if b' then 1 else if b then 0
             else match holder with Some _ => 1 | None => 0 end)%nat in
  (n' <= 1)%nat ->
  (n' = 1%nat -> born j w') ->
  (n' = 1%nat \/ ~ born j w' -> clean (job_record w' j)) ->
  settled (job_record w' j) ->
  token_inv j (System w' (<[i := Thread R (k x)]> ts)) (new_holder holder i b b').
Proof.
  intros Hinv Hi b -> b' Hposs Hnone n' H1 H2 H3 H4.
  set (b := bool_decide (holder = Some i)) in *.
  assert (Hn : tokens j (System w' (<[i := Thread R (k x)]> ts)) (new_holder holder i b b')
               = n').
  { unfold tokens, new_holder, n'; cbn [sys_world]. by destruct b', b. }
  split; rewrite ?Hn; cbn [sys_world pool]; try done.
  - by apply threads_updated; [apply Hinv|..].
  - intros i' Hh. rewrite length_insert. unfold new_holder in Hh.
    destruct b'; [simplify_eq; by eapply lookup_lt_Some|].
    destruct b; [done|]. by apply (inv_holder _ _ _ Hinv).
Qed.


Lemma inv_effect (w : world) (ts : list thread) (holder : option nat) (i : nat)
    (R X : Type) (c : eff X) (k : X -> prog R) :
  token_inv j (System w ts) holder ->
  ts !! i = Some (Thread R (Vis c k)) ->
  exists holder',
    token_inv j
      (System (handle E c w).2 (<[i := Thread R (k (handle E c w).1)]> ts)) holder' /\
    (~ clean (job_record w j) -> job_record (handle E c w).2 j = job_record w j).
Proof.
  intros Hinv Hi. rewrite handle_eq. cbn [fst snd].
  destruct (inv_threads _ _ _ Hinv _ _ Hi) as [Hperm _].
  remember (bool_decide (holder = Some i)) as b eqn:Hbdef.
  pose proof (inv_single _ _ _ Hinv) as Hsingle.
  pose proof (inv_born _ _ _ Hinv) as Hborn.
  pose proof (inv_clean _ _ _ Hinv) as Hclean.
  pose proof (inv_settled _ _ _ Hinv) as Hcoupled.
  unfold tokens in Hsingle, Hborn, Hclean. cbn [sys_world] in *.
  assert (Hb : b = true -> holder = Some i).
  { subst b. intros Heq. by apply bool_decide_eq_true in Heq. }
  assert (Hnb : b = false -> holder <> Some i).
  { subst b. intros Heq. by apply bool_decide_eq_false in Heq. }
  set (ev := (answer E c w).2). set (x := (answer E c w).1).
  exists (new_holder holder i b (next j c x b)).
  (* everything the invariant speaks of is as before *)
  assert (Hsame :
    possible j c x b ->
    next j c x b = b ->
    tokens_at_rest j (record_event w ev) = tokens_at_rest j w ->
    ev <> EUuid j ->
    job_record (record_event w ev) j = job_record w j ->
    token_inv j (System (record_event w ev) (<[i := Thread R (k x)]> ts))
      (new_holder holder i b (next j c x b)) /\
    (~ clean (job_record w j) -> job_record (record_event w ev) j = job_record w j)).
  { intros Hposs Hnext Hrest Hev Hrec. split; [|done].
    apply (inv_after_effect w); try done; rewrite ?Hnext, ?Hrest, ?Hrec, ?born_record_event.
    - intros ? ?; congruence.
    - destruct b; [rewrite (Hb eq_refl) in Hsingle|]; done.
    - destruct b; [rewrite (Hb eq_refl) in Hborn|]; intros Hn; left; by apply Hborn.
    - destruct b; [rewrite (Hb eq_refl) in Hclean|]; intros [Hn | Hn]; apply Hclean; tauto.
    - done. }
  destruct c as [key m | key | q v | q t | | | url t | lvl msg | job_id n | secs];
    cbn [answer fst snd] in ev, x; cbn [permitted] in Hperm.
  - (* HSet *)
    subst ev x. destruct (decide (key = Worker.job_key j)) as [-> | Hkey].
    + destruct Hperm as [-> Hkind]; [done|].
      assert (holder = Some i) as -> by by apply Hb.
      assert (Hrest : tokens_at_rest j w = 0%nat) by lia.
      assert (Hcl : clean (job_record w j)) by (apply Hclean; left; lia).
      assert (Hbo : born j w) by (apply Hborn; lia).
      split; [|done].
      apply (inv_after_effect w); try done; cbn [next];
        rewrite ?decide_True by done;
        rewrite ?tokens_at_rest_record_event, ?job_record_record_event, ?born_record_event,
          ?decide_True by done.
      * destruct (classify m); lia.
      * intros _. by left.
      * destruct (classify m) eqn:Hc; try done.
        -- intros _. by apply hset_advancing.
        -- intros [? | Hnb']; [lia | tauto].
      * destruct (classify m) eqn:Hc; try done.
        -- by apply clean_settled, hset_advancing.
        -- by apply hset_concluding.
    + apply Hsame; try done.
      * cbn [next]. by rewrite decide_False.
      * rewrite job_record_record_event. by rewrite decide_False.
  - (* HGetAll *) by apply Hsame.
  - (* LPush *)
    subst ev x. destruct Hperm as [-> Hv].
    destruct (decide (v = j)) as [-> | Hne].
    + rewrite (Hv eq_refl) in *. assert (holder = Some i) as -> by by apply Hb.
      assert (Hrest : tokens_at_rest j w = 0%nat) by lia.
      split; [|done].
      apply (inv_after_effect w); try done; cbn [next];
        rewrite ?decide_True by done;
        rewrite ?tokens_at_rest_record_event, ?job_record_record_event, ?born_record_event,
          ?decide_True by done.
      * lia.
      * intros _. left. apply Hborn. lia.
      * intros _. apply Hclean. left. lia.
    + apply Hsame; try done.
      * cbn [next]. by rewrite decide_False.
      * rewrite tokens_at_rest_record_event. rewrite decide_True, decide_False by done. lia.
  - (* BRPop *)
    subst ev x. rewrite Hperm in *. clear Hperm.
    destruct (last (lrange w queue_name)) as [v|] eqn:Hlast; cbn [fst snd] in *.
    + pose proof (count_occ_removelast _ _ j Hlast) as Hcount.
      destruct (decide (v = j)) as [-> | Hne].
      * assert (Hrest : tokens_at_rest j w = 1%nat /\ holder = None).
        { unfold tokens_at_rest in *. destruct holder; split; try done; lia. }
        destruct Hrest as [Hrest ->].
        assert (b = false) as -> by done.
        split; [|done].
        apply (inv_after_effect w); try done; cbn [next];
          rewrite ?decide_True by done;
          rewrite ?tokens_at_rest_record_event, ?job_record_record_event, ?born_record_event,
            ?decide_True by done.
        -- unfold tokens_at_rest in Hrest. lia.
        -- intros _. left. apply Hborn. lia.
        -- intros _. apply Hclean. left. lia.
      * apply Hsame; try done.
        -- cbn [possible]. intros queue Heq. by simplify_eq.
        -- cbn [next]. by rewrite decide_False.
        -- rewrite tokens_at_rest_record_event. rewrite decide_True by done.
           unfold tokens_at_rest. lia.
    + by apply Hsame.
  - (* UtcNowIso *) by apply Hsame.
  - (* Uuid4 *)
    subst ev x. destruct (decide (uuid4 E (trace w) = j)) as [Hu | Hne].
    + assert (Hnew : ~ born j w).
      { unfold born. rewrite <- Hu. apply Hfresh. }
      assert (Hrest : tokens_at_rest j w = 0%nat /\ holder = None).
      { destruct holder; split; try done; try lia;
          destruct (tokens_at_rest j w) as [|[|?]]; try done; try lia;
          exfalso; apply Hnew, Hborn; lia. }
      destruct Hrest as [Hrest ->].
      assert (b = false) as -> by done.
      split; [|intros Hncl; destruct Hncl; apply Hclean; by right].
      apply (inv_after_effect w); try done; cbn [next];
        rewrite ?decide_True by done;
        rewrite ?tokens_at_rest_record_event, ?job_record_record_event, ?born_record_event,
          ?decide_True by done.
      * lia.
      * intros _. right. by rewrite Hu.
      * intros _. apply Hclean. by right.
    + apply Hsame; try done.
      * cbn [possible]. by intros ?.
      * cbn [next]. by rewrite decide_False.
      * intros Heq. by simplify_eq.
  - (* HttpPost *) by apply Hsame.
  - (* Log *) by apply Hsame.
  - (* Delay *)
    subst ev x. destruct (decide (job_id = j)) as [-> | Hne].
    + rewrite (Hperm eq_refl) in *. assert (holder = Some i) as -> by by apply Hb.
      assert (Hrest : tokens_at_rest j w = 0%nat) by lia.
      split; [|done].
      apply (inv_after_effect w); try done; cbn [next];
        rewrite ?decide_True by done;
        rewrite ?tokens_at_rest_record_event, ?job_record_record_event, ?born_record_event,
          ?decide_True by done.
      * lia.
      * intros _. left. apply Hborn. lia.
      * intros _. apply Hclean. left. lia.
    + apply Hsame; try done.
      * cbn [next]. by rewrite decide_False.
      * rewrite tokens_at_rest_record_event. rewrite decide_False by done. lia.
  - (* Sleep *) by apply Hsame.
Qed.


Lemma count_occ_delete (l : list (string * string)) (i : nat) (job_id n : string) :
  l !! i = Some (job_id, n) ->
  count_occ String.string_dec (map fst l) j =
  (count_occ String.string_dec (map fst (delete i l)) j
   + if decide (job_id = j) then 1 else 0)%nat.
Proof.
  intros Hl. rewrite delete_take_drop.
  rewrite <- (take_drop_middle l i (job_id, n) Hl) at 1.
  rewrite !map_app, !count_occ_app. simpl.
  destruct (String.string_dec job_id j), (decide (job_id = j)); try done; lia.
Qed.

Lemma inv_start (w : world) (ts : list thread) (holder : option nat) (i : nat)
    (job_id n : string) :
  token_inv j (System w ts) holder ->
  tasks w !! i = Some (job_id, n) ->
  exists holder',
    token_inv j
      (System (take_task i w)
         (ts ++ [Thread _ (Worker.process_patient_pipeline job_id n)])) holder'.
Proof.
  intros Hinv Hi.
  pose proof (count_occ_delete _ _ _ _ Hi) as Hcount.
  destruct (decide (job_id = j)) as [-> | Hne].
  - pose proof (inv_single _ _ _ Hinv) as Hsingle.
    unfold tokens, tokens_at_rest in Hsingle. cbn [sys_world] in Hsingle.
    assert (holder = None) as -> by (destruct holder; [lia | done]).
    destruct Hinv as [Hth Hho Hsi Hbo Hcl Hco].
    unfold tokens, tokens_at_rest in *. cbn [sys_world pool] in *.
    exists (Some (length ts)).
    split; unfold tokens, tokens_at_rest; cbn [sys_world pool take_task tasks lists].
    + intros i' t Hl. apply lookup_app_Some in Hl as [Hl | [Hlen Hl]].
      * rewrite bool_decide_eq_false_2.
        -- by apply (Hth i').
        -- intros Heq. simplify_eq. apply lookup_lt_Some in Hl. lia.
      * apply list_lookup_singleton_Some in Hl as [Hi' <-].
        rewrite bool_decide_eq_true_2 by (f_equal; lia).
        apply pipeline_holder.
    + intros i' Heq. simplify_eq. rewrite length_app. simpl. lia.
    + change (lrange (take_task i w) queue_name) with (lrange w queue_name). lia.
    + intros _. apply Hbo. change (lrange (take_task i w) queue_name) with (lrange w queue_name) in *. lia.
    + intros _. apply Hcl. left. lia.
    + done.
  - exists holder. apply inv_spawn; [|by apply pipeline_passive].
    destruct Hinv as [Hth Hho Hsi Hbo Hcl Hco].
    unfold tokens, tokens_at_rest in *. cbn [sys_world pool] in *.
    assert (Heq : count_occ String.string_dec (map fst (tasks (take_task i w))) j
                  = count_occ String.string_dec (map fst (tasks w)) j).
    { cbn [take_task tasks]. lia. }
    split; unfold tokens, tokens_at_rest; cbn [sys_world pool];
      change (lrange (take_task i w) queue_name) with (lrange w queue_name);
      rewrite ?Heq; done.
Qed.

Lemma inv_step (s s' : system) (holder : option nat) :
  token_inv j s holder ->
  step E s s' ->
  exists holder',
    token_inv j s' holder' /\
    (~ clean (job_record (sys_world s) j) ->
     job_record (sys_world s') j = job_record (sys_world s) j).
Proof.
  intros Hinv Hstep.
  destruct Hstep as [w ts n | w ts | w ts i job_id n Hi | w ts i R X c k Hi].
  - exists holder. split; [|done]. apply inv_spawn; [done|]. apply process_patient_passive.
  - exists holder. split; [|done]. apply inv_spawn; [done|]. apply consume_iteration_passive.
  - destruct (inv_start _ _ _ _ _ _ Hinv Hi) as [holder' Hinv']. by exists holder'.
  - by eapply inv_effect.
Qed.

Lemma job_record_empty : job_record empty_world j = ∅.
Proof. unfold job_record, hgetall, empty_world; simpl. by rewrite lookup_empty. Qed.

Lemma inv_initial : token_inv j initial None.
Proof.
  split; cbn [initial sys_world pool]; rewrite ?job_record_empty.
  - intros i t Hl. done.
  - done.
  - unfold tokens, tokens_at_rest, lrange; simpl. rewrite lookup_empty. simpl. lia.
  - unfold tokens, tokens_at_rest, lrange; simpl. rewrite lookup_empty. simpl. lia.
  - intros _. split; [apply lookup_empty|]. intros [H|H]; by rewrite lookup_empty in H.
  - right. split; [|apply lookup_empty]. intros H. by rewrite lookup_empty in H.
Qed.

Lemma inv_reachable (s : system) :
  rtc (step E) initial s -> exists holder, token_inv j s holder.
Proof.
  revert s. apply rtc_ind_r.
  - exists None. apply inv_initial.
  - intros s1 s2 _ Hstep [holder Hinv].
    destruct (inv_step _ _ _ Hinv Hstep) as (holder' & Hinv' & _). by exists holder'.
Qed.

Lemma inv_frozen (s s' : system) (holder : option nat) :
  token_inv j s holder ->
  ~ clean (job_record (sys_world s) j) ->
  rtc (step E) s s' ->
  job_record (sys_world s') j = job_record (sys_world s) j.
Proof.
  intros Hinv Hncl Hrtc. revert holder Hinv Hncl.
  induction Hrtc as [s | s s1 s' Hstep Hrtc IH]; intros holder Hinv Hncl; [done|].
  destruct (inv_step _ _ _ Hinv Hstep) as (holder' & Hinv' & Hsame).
  rewrite <- (Hsame Hncl). apply (IH holder' Hinv'). by rewrite (Hsame Hncl).
Qed.

End Preservation.

(** ** Schedules are runs of the system *)

Lemma act_step (E : env) (s : system) (a : action) :
  act E s a = s \/ step E s (act E s a).
Proof.
  destruct s as [w ts]. destruct a as [n | | i | i]; cbn [act sys_world pool].
  - right. apply step_request.
  - right. apply step_consume.
  - destruct (tasks w !! i) as [[job_id n]|] eqn:Hi; [|by left].
    right. by apply step_start.
  - destruct (ts !! i) as [[R p]|] eqn:Hi; [|by left].
    destruct p as [r | e | X c k]; cbn [thread_prog thread_result]; [by left | by left |].
    right. by apply step_effect.
Qed.

Lemma schedule_rtc (E : env) (acts : list action) (s : system) :
  rtc (step E) s (schedule E acts s).
Proof.
  unfold schedule. revert s. induction acts as [| a acts IH]; intros s; simpl; [done|].
  destruct (act_step E s a) as [-> | Hstep]; [apply IH|].
  eapply rtc_l; [exact Hstep | apply IH].
Qed.

Lemma schedule_app (E : env) (acts acts' : list action) (s : system) :
  schedule E (acts ++ acts') s = schedule E acts' (schedule E acts s).
Proof. apply foldl_app. Qed.

(** ** A generator of new identifiers *)

Lemma length_filler (n : nat) : String.length (filler n) = n.
Proof.
  induction n as [| n IH]; [done|]. cbn [filler].
  change (String.length ("x" +:+ filler n)) with (S (String.length (filler n))).
  by rewrite IH.
Qed.

Lemma longest_uuid_bound (t : list event) (u : string) :
  EUuid u ∈ t -> (String.length u <= longest_uuid t)%nat.
Proof.
  induction t as [| ev t IH]; intros Hin; [by apply elem_of_nil in Hin|].
  apply elem_of_cons in Hin as [<- | Hin]; simpl; [lia|].
  specialize (IH Hin). destruct ev; simpl; lia.
Qed.

Lemma env_fresh_fresh : fresh_uuids env_fresh.
Proof.
  intros t Hin. apply longest_uuid_bound in Hin.
  cbn [uuid4 env_fresh] in Hin. unfold fresh_uuid in Hin.
  rewrite length_filler in Hin. lia.
Qed.

(** * The closed system *)

(** C5, as the code has it.  In the system started from an empty Redis,
    where identifiers enter only through job creation and the generator
    never repeats one (so that no job is dispatched twice), every job
    record, in every state the system can reach, is failed if and only
    if it has a non-empty error field; a record that is not failed, in
    particular a freshly created or a completed one, has no error field
    at all. *)
Theorem coupling_when_dispatched_once (E : env) (s : system) (job_id : string) :
  fresh_uuids E ->
  rtc (step E) initial s ->
  let h := job_record (sys_world s) job_id in
  coupled h /\
  (h !! "status" <> Some "failed" -> h !! "error" = None) /\
  (h !! "status" = Some "completed" -> h !! "error" = None).
Proof.
  intros Hfresh Hrtc h.
  destruct (inv_reachable E Hfresh job_id s Hrtc) as [holder Hinv].
  pose proof (inv_settled _ _ _ Hinv) as Hs. fold h in Hs.
  split; [by apply settled_coupled|].
  destruct Hs as [[Hf He] | [Hf He]]; split; try done; congruence.
Qed.

(** C3, as the code has it.  In the same system, once a record is
    completed or failed it stays as it is, status and progress included,
    whatever the system does next. *)
Theorem terminal_when_dispatched_once (E : env) (s s' : system) (job_id : string) :
  fresh_uuids E ->
  rtc (step E) initial s ->
  terminal (job_record (sys_world s) job_id) ->
  rtc (step E) s s' ->
  job_record (sys_world s') job_id = job_record (sys_world s) job_id /\
  job_record (sys_world s') job_id !! "status" = job_record (sys_world s) job_id !! "status" /\
  job_record (sys_world s') job_id !! "progress" = job_record (sys_world s) job_id !! "progress".
Proof.
  intros Hfresh Hrtc Hterm Hrtc'.
  destruct (inv_reachable E Hfresh job_id s Hrtc) as [holder Hinv].
  assert (Heq : job_record (sys_world s') job_id = job_record (sys_world s) job_id).
  { eapply inv_frozen; try done. by intros [_ Hnt]. }
  by rewrite Heq.
Qed.

Lemma coupling_when_dispatched_once_witness :
  fresh_uuids env_fresh /\
  rtc (step env_fresh) initial (schedule env_fresh one_job initial) /\
  coupled (job_record (sys_world (schedule env_fresh one_job initial)) "x").
Proof.
  split; [apply env_fresh_fresh|]. split; [apply schedule_rtc|].
  apply (coupling_when_dispatched_once env_fresh (schedule env_fresh one_job initial) "x"
           env_fresh_fresh (schedule_rtc env_fresh one_job initial)).
Defined.

Lemma terminal_when_dispatched_once_witness :
  terminal (job_record (sys_world (schedule env_fresh one_job initial)) "x") /\
  job_record (sys_world (schedule env_fresh (one_job ++ next_request) initial)) "x"
    !! "status" = Some "completed".
Proof.
  assert (Hdone : job_record (sys_world (schedule env_fresh one_job initial)) "x"
                    !! "status" = Some "completed").
  { vm_compute. reflexivity. }
  split; [left; exact Hdone|].
  refine (eq_trans _ Hdone).
  refine (proj1 (proj2 (terminal_when_dispatched_once env_fresh
            (schedule env_fresh one_job initial)
            (schedule env_fresh (one_job ++ next_request) initial) "x"
            env_fresh_fresh (schedule_rtc env_fresh one_job initial)
            (or_introl Hdone) _))).
  rewrite schedule_app. apply schedule_rtc.
Defined.

(** C3, as stated, fails.  Jane Doe's job is completed at progress 100;
    dispatched a second time while the ocr stage is down, it ends failed
    at progress 25. *)
Lemma second_dispatch_rewrites_terminal :
  let o := run env_ocr_down (Worker.process_patient_pipeline "job-0" "Jane Doe")
             jane_completed in
  job_record jane_completed "job-0" !! "status" = Some "completed" /\
  job_record jane_completed "job-0" !! "progress" = Some "100" /\
  job_record (final o) "job-0" !! "status" = Some "failed" /\
  job_record (final o) "job-0" !! "progress" = Some "25" /\
  ~ terminal_stability.
Proof.
  intros o.
  assert (Hbefore : job_record jane_completed "job-0" !! "status" = Some "completed")
    by (vm_compute; reflexivity).
  assert (Hafter : job_record (final o) "job-0" !! "status" = Some "failed")
    by (vm_compute; reflexivity).
  split; [exact Hbefore|]. split; [vm_compute; reflexivity|].
  split; [exact Hafter|]. split; [vm_compute; reflexivity|].
  intros Hclaim.
  destruct (Hclaim env_ocr_down jane_completed "job-0" "Jane Doe") as [Hstatus _].
  - by left.
  - fold o in Hstatus. rewrite Hbefore, Hafter in Hstatus.
    clear Hbefore Hafter. discriminate Hstatus.
Qed.

(** C5, as stated, fails.  Jane Doe's job has failed with its error
    recorded; dispatched a second time with every stage up, it ends
    completed and still carries that error. *)
Lemma second_dispatch_keeps_error :
  let o := run env_all_ok (Worker.process_patient_pipeline "job-0" "Jane Doe")
             jane_failed in
  job_record jane_failed "job-0" !! "status" = Some "failed" /\
  job_record jane_failed "job-0" !! "error" = Some "OCR processing failed" /\
  job_record (final o) "job-0" !! "status" = Some "completed" /\
  job_record (final o) "job-0" !! "error" = Some "OCR processing failed" /\
  ~ coupling_at_all_times.
Proof.
  intros o.
  assert (Hstatus : job_record jane_failed "job-0" !! "status" = Some "failed")
    by (vm_compute; reflexivity).
  assert (Herror : job_record jane_failed "job-0" !! "error"
                   = Some "OCR processing failed") by (vm_compute; reflexivity).
  assert (Hstatus' : job_record (final o) "job-0" !! "status" = Some "completed")
    by (vm_compute; reflexivity).
  assert (Herror' : job_record (final o) "job-0" !! "error"
                    = Some "OCR processing failed") by (vm_compute; reflexivity).
  split; [exact Hstatus|]. split; [exact Herror|].
  split; [exact Hstatus'|]. split; [exact Herror'|].
  intros Hclaim.
  specialize (Hclaim env_all_ok jane_failed "job-0" "Jane Doe").
  fold o in Hclaim. unfold coupled, has_error in Hclaim.
  rewrite Hstatus, Herror, Hstatus', Herror' in Hclaim.
  clear Hstatus Herror Hstatus' Herror'.
  destruct Hclaim as [_ Hback].
  - split; [intros _; by exists "OCR processing failed" | done].
  - discriminate Hback. by exists "OCR processing failed".
Qed.

(** * The rest of the code

    The rest of the worker and of the gateway (the stage adapter, the
    status update, the loop of the consumer, the two queries), and the
    functions of the form and document services that work on data
    alone. *)

(** ** Text *)

Lemma append_assoc (a b c : string) : (a +:+ b) +:+ c = a +:+ (b +:+ c).
Proof.
  induction a as [| x a IH]; [done|].
  change (String x ((a +:+ b) +:+ c) = String x (a +:+ (b +:+ c))). by rewrite IH.
Qed.









(** ** What a run may do *)

Section Footprint.
Context (P : forall X : Type, eff X -> Prop).

Lemma performs_bind {A B : Type} (p : prog A) (f : A -> prog B) :
  performs P p -> (forall a, performs P (f a)) -> performs P (p ≫= f).
Proof.
  intros Hp Hf. change (p ≫= f) with (bind p f).
  induction p as [a | e | X c k IH]; simpl in *; [apply Hf | done |].
  destruct Hp as [Hc Hk]. split; [done|]. intros x. by apply IH.
Qed.

Lemma performs_try_except {R : Type} (p : prog R) (h : exn -> prog R) :
  performs P p -> (forall e, performs P (h e)) -> performs P (try_except p h).
Proof.
  intros Hp Hh.
  induction p as [a | e | X c k IH]; simpl in *; [done | apply Hh |].
  destruct Hp as [Hc Hk]. split; [done|]. intros x. by apply IH.
Qed.

Lemma performs_call {X : Type} (c : eff X) : P X c -> performs P (call c).
Proof. by split. Qed.

Lemma performs_emitted (E : env) (Q : event -> Prop) {R : Type} (p : prog R) (w : world) :
  (forall X (c : eff X) w', P X c -> Q (answer E c w').2) ->
  performs P p -> Forall Q (emitted (run E p w)).
Proof.
  intros HPQ. revert w.
  induction p as [a | e | X c k IH]; intros w Hp; simpl; try by constructor.
  destruct Hp as [Hc Hk]. rewrite handle_eq. simpl.
  constructor; [by apply HPQ | by apply IH].
Qed.

End Footprint.

(** ** The worker, effect by effect *)

Lemma mapping_get_three (f a x b y c z : string) :
  is_Some (mapping_get f [(a, x); (b, y); (c, z)]) -> f = a \/ f = b \/ f = c.
Proof.
  rewrite !mapping_get_cons. change (mapping_get f []) with (@None string).
  destruct (String.eqb_spec c f) as [-> | _]; [tauto|].
  destruct (String.eqb_spec b f) as [-> | _]; [tauto|].
  destruct (String.eqb_spec a f) as [-> | _]; [tauto|].
  by intros [? ?].
Qed.

Lemma performs_update_job_status (j s : string) (p : Z) :
  performs (pipeline_effect j) (Worker.update_job_status j s p).
Proof.
  unfold Worker.update_job_status.
  apply performs_bind; [by apply performs_call|]. intros stamp.
  apply performs_call. split; [done|]. intros f Hf.
  apply mapping_get_three in Hf. rewrite !elem_of_cons. tauto.
Qed.

Lemma performs_call_service (j name endpoint : string) :
  performs (pipeline_effect j) (Worker.call_service name endpoint).
Proof.
  unfold Worker.call_service. apply performs_try_except.
  - destruct (Worker.SERVICES !! name) as [base|]; [|done].
    apply performs_bind; [by apply performs_call|].
    intros [e | [[e|] [body|e']]]; done.
  - intros e. apply performs_bind; [by apply performs_call | done].
Qed.

Lemma performs_pipeline (j n : string) :
  performs (pipeline_effect j) (Worker.process_patient_pipeline j n).
Proof.
  unfold Worker.process_patient_pipeline. apply performs_try_except.
  - unfold Worker.pipeline_try.
    repeat
      match goal with
      | |- performs _ (Worker.update_job_status _ _ _) => apply performs_update_job_status
      | |- performs _ (Worker.call_service _ _) => apply performs_call_service
      | |- performs _ (_ ≫= _) => apply performs_bind; [|intros ?]
      | |- performs _ (call _) => by apply performs_call
      | |- performs _ (if ?b then _ else _) => by destruct b
      | |- performs _ (Ret _) => done
      end.
  - intros e. unfold Worker.pipeline_except.
    apply performs_bind; [by apply performs_call|]. intros _.
    apply performs_bind; [by apply performs_call|]. intros stamp.
    apply performs_bind; [|done].
    apply performs_call. split; [done|]. intros f Hf.
    apply mapping_get_three in Hf. rewrite !elem_of_cons. tauto.
Qed.

Lemma lists_tasks_record_event (w : world) (ev : event) :
  match ev with ELPush _ _ | EBRPop _ (Some _) | EDelay _ _ => False | _ => True end ->
  lists (record_event w ev) = lists w /\ tasks (record_event w ev) = tasks w.
Proof. by destruct ev as [| | | ? [?|] | | | | | |]. Qed.

Lemma queues_replay_kept (evs : list event) (w : world) :
  Forall (fun ev => match ev with
                    | ELPush _ _ | EBRPop _ (Some _) | EDelay _ _ => False
                    | _ => True
                    end) evs ->
  lists (replay evs w) = lists w /\ tasks (replay evs w) = tasks w.
Proof.
  unfold replay. revert w. induction evs as [| ev evs IH]; intros w Hall; simpl; [done|].
  inversion Hall as [| ? ? Hev Hrest]; subst.
  destruct (IH (record_event w ev) Hrest) as [Hl Ht].
  destruct (lists_tasks_record_event w ev Hev) as [Hl' Ht'].
  split; congruence.
Qed.

Lemma hgetall_replay_other (evs : list event) (w : world) (key : string) :
  Forall (fun ev => match ev with EHSet key' _ => key' <> key | _ => True end) evs ->
  hgetall (replay evs w) key = hgetall w key.
Proof.
  unfold replay. revert w. induction evs as [| ev evs IH]; intros w Hall; simpl; [done|].
  inversion Hall as [| ? ? Hev Hrest]; subst.
  rewrite (IH _ Hrest), hgetall_record_event.
  destruct ev; try done. by rewrite decide_False.
Qed.

Lemma lookup_replay_frame (evs : list event) (w : world) (key f : string) :
  Forall (fun ev => match ev with
                    | EHSet key' m => key' = key -> mapping_get f m = None
                    | _ => True
                    end) evs ->
  hgetall (replay evs w) key !! f = hgetall w key !! f.
Proof.
  unfold replay. revert w. induction evs as [| ev evs IH]; intros w Hall; simpl; [done|].
  inversion Hall as [| ? ? Hev Hrest]; subst.
  rewrite (IH _ Hrest), hgetall_record_event.
  destruct ev as [key' m | | | | | | | | |]; try done.
  destruct (decide (key' = key)) as [Hk|]; [|done].
  by rewrite hset_fields_lookup, (Hev Hk).
Qed.



Lemma pipeline_events (E : env) (w : world) (j n : string) :
  Forall (pipeline_event j) (emitted (run E (Worker.process_patient_pipeline j n) w)).
Proof.
  apply (performs_emitted (pipeline_effect j)); [|apply performs_pipeline].
  intros X c w' Hc. by destruct c.
Qed.

Lemma pipeline_frame (E : env) (w : world) (j n f : string) :
  f ∉ ["status"; "progress"; "updated_at"; "error"; "failed_at"] ->
  job_record (final (run E (Worker.process_patient_pipeline j n) w)) j !! f =
  job_record w j !! f.
Proof.
  intros Hf. unfold job_record. rewrite run_final. apply lookup_replay_frame.
  eapply Forall_impl; [apply pipeline_events|].
  intros [key m| | | | | | | | |] Hp; try done.
  intros _. destruct Hp as [_ Hm].
  destruct (mapping_get f m) eqn:Hget; [|done].
  destruct Hf. apply Hm. by eexists.
Qed.

(** X3.  A run of the pipeline for a job performs nothing but clock
    reads, log lines, posts with a timeout of 300 seconds and writes to
    the record of that job, and these writes set no field other than
    status, progress, updated_at, error and failed_at.  So the run
    leaves every other hash as it was, keeps every other field of its
    own record, patient_name and created_at among them, and neither
    pushes to or pops from a queue nor dispatches a task. *)
Theorem pipeline_touches_own_record_only (E : env) (w : world)
    (job_id patient_name : string) :
  let o := run E (Worker.process_patient_pipeline job_id patient_name) w in
  performs (pipeline_effect job_id)
    (Worker.process_patient_pipeline job_id patient_name) /\
  Forall (pipeline_event job_id) (emitted o) /\
  (forall key, key <> Worker.job_key job_id -> hgetall (final o) key = hgetall w key) /\
  (forall f, f ∉ ["status"; "progress"; "updated_at"; "error"; "failed_at"] ->
             job_record (final o) job_id !! f = job_record w job_id !! f) /\
  lists (final o) = lists w /\
  tasks (final o) = tasks w.
Proof.
  intros o. split; [apply performs_pipeline|].
  pose proof (pipeline_events E w job_id patient_name) as Hev. fold o in Hev.
  split; [exact Hev|].
  split; [|split; [intros f Hf; by apply pipeline_frame|]].
  - intros key Hkey. subst o. rewrite run_final. apply hgetall_replay_other.
    eapply Forall_impl; [exact Hev|]. intros [] Hp; try done.
    destruct Hp as [-> _]. congruence.
  - subst o. rewrite run_final. apply queues_replay_kept.
    eapply Forall_impl; [exact Hev|]. by intros [| | | ? [?|] | | | | | |].
Qed.

(** Every post in the trace of a run carries what the environment
    answered. *)
Lemma run_posts_from_env (E : env) {R : Type} (p : prog R) (w : world) :
  Forall (fun ev => match ev with
                    | EPost url out => exists t, out = http E t url
                    | _ => True
                    end) (emitted (run E p w)).
Proof.
  revert w. induction p as [a | e | X c k IH]; intros w; simpl; try by constructor.
  rewrite handle_eq. simpl. constructor; [|apply IH].
  destruct c; simpl; try done.
  - by destruct (last (lrange w queue)).
  - by eexists.
Qed.

(** X22.  The executor takes a stage that answers without a body worth
    the name for a failed one: when the document stage answers with
    status 200 and a JSON value that Python counts as false (the empty
    object, an empty list, 0, the empty string, false, null), the run
    raises "Document analysis failed", calls no further stage, and
    leaves the job failed with that message at progress 10. *)
Theorem falsy_body_fails_stage (E : env) (w : world) (job_id patient_name : string)
    (body : json) :
  truthy body = false ->
  (forall t, http E t (document_url patient_name) = PostReturns (Response None (Ok body))) ->
  let o := run E (Worker.process_patient_pipeline job_id patient_name) w in
  res o = Err (stage_failed "Document analysis failed") /\
  stage_calls (emitted o) = [(document_url patient_name, false)] /\
  job_record (final o) job_id !! "status" = Some "failed" /\
  job_record (final o) job_id !! "error" = Some "Document analysis failed" /\
  job_record (final o) job_id !! "progress" = Some "10".
Proof.
  intros Hfalsy Henv o.
  assert (Hfirst : forall o1,
            EPost (document_url patient_name) o1 ∈ actions (emitted o) ->
            stage_ok o1 = false).
  { intros o1 Hin. unfold actions in Hin. apply list_elem_of_In in Hin.
    apply List.filter_In in Hin as [Hin _]. apply list_elem_of_In in Hin.
    pose proof (run_posts_from_env E
                  (Worker.process_patient_pipeline job_id patient_name) w) as Hposts.
    rewrite Forall_forall in Hposts. destruct (Hposts _ Hin) as [t ->].
    rewrite Henv. exact Hfalsy. }
  assert (Hshape : exists s1 o1 sf,
            res o = Err (stage_failed "Document analysis failed") /\
            stage_ok o1 = false /\
            actions (emitted o) =
              [status_write job_id "processing" 10 s1;
               EPost (document_url patient_name) o1;
               failure_write job_id "Document analysis failed" sf]).
  { pose proof (pipeline_actions E job_id patient_name w) as Hshape. fold o in Hshape.
    remember (res o) as r eqn:Hr.
    remember (actions (emitted o)) as acts eqn:Hacts.
    shape_cases Hshape.
    - by exists s1, o1, sf.
    - rewrite (Hfirst o1) in H1; [discriminate H1|].
      cbn [app]. rewrite !elem_of_cons. tauto.
    - rewrite (Hfirst o1) in H1; [discriminate H1|].
      cbn [app]. rewrite !elem_of_cons. tauto.
    - rewrite (Hfirst o1) in H1; [discriminate H1|].
      cbn [app]. rewrite !elem_of_cons. tauto.
    - rewrite (Hfirst o1) in H1; [discriminate H1|].
      cbn [app]. rewrite !elem_of_cons. tauto. }
  destruct Hshape as (s1 & o1 & sf & Hres & Hok & Hacts).
  split; [exact Hres|]. split.
  - rewrite <- stage_calls_actions, Hacts. unfold stage_calls. cbn [omap list_omap].
    by rewrite Hok.
  - subst o. rewrite job_record_final, Hacts.
    cbn [foldl status_write failure_write]. rewrite !decide_True by reflexivity.
    rewrite !hset_fields_lookup. done.
Qed.

Lemma falsy_body_fails_stage_witness :
  job_record
    (final (run env_empty_body (Worker.process_patient_pipeline "job-0" "Jane Doe")
              jane_dispatched)) "job-0" !! "error" = Some "Document analysis failed".
Proof.
  refine (proj1 (proj2 (proj2 (proj2
            (falsy_body_fails_stage env_empty_body jane_dispatched "job-0" "Jane Doe"
               (JObj []) _ _))))).
  - reflexivity.
  - intros t. reflexivity.
Defined.

(** ** The loop of the consumer *)

Lemma lists_record_event_other (w : world) (ev : event) :
  match ev with ELPush _ _ | EBRPop _ (Some _) => False | _ => True end ->
  lists (record_event w ev) = lists w.
Proof. by destruct ev as [| | | ? [?|] | | | | | |]. Qed.

(** One turn of the loop on a token whose record names a patient. *)
Lemma run_consume_iteration_dispatch (E : env) (w : world) (token name : string)
    (rest : list string) :
  lrange w "processing_queue" = rest ++ [token] ->
  hgetall w (Worker.job_key token) !! "patient_name" = Some name ->
  let evs := [EBRPop "processing_queue" (Some token); EHGetAll (Worker.job_key token);
              EDelay token name] in
  run E Worker.consume_iteration w = Outcome (Ok tt) (replay evs w) evs.
Proof.
  intros Hq Hname evs. unfold Worker.consume_iteration.
  rewrite run_try_except, run_consume_try_block, Hq, last_snoc. cbv zeta.
  rewrite bool_decide_eq_false_2.
  2:{ intros Hempty. rewrite Hempty in Hname. by rewrite lookup_empty in Hname. }
  by rewrite Hname.
Qed.

Lemma replay_dispatch_world (w : world) (token name : string) (rest : list string) :
  lrange w "processing_queue" = rest ++ [token] ->
  let w' := replay [EBRPop "processing_queue" (Some token);
                    EHGetAll (Worker.job_key token); EDelay token name] w in
  lrange w' "processing_queue" = rest /\
  tasks w' = tasks w ++ [(token, name)] /\
  hashes w' = hashes w.
Proof.
  intros Hq w'. subst w'. unfold replay. cbn [foldl].
  rewrite !lrange_record_event, !tasks_record_event.
  rewrite decide_True by done. rewrite Hq, removelast_last. done.
Qed.



Lemma run_process_patient (E : env) (w : world) (patient_name : string) :
  run E (Gateway.process_patient patient_name) w =
  Outcome (Ok [("job_id", uuid4 E (trace w)); ("patient_name", patient_name);
               ("status", "submitted"); ("message", "Processing started")])
    (replay (creation_events E patient_name w) w)
    (creation_events E patient_name w).
Proof. reflexivity. Qed.

Lemma created_world (E : env) (w : world) (patient_name : string) :
  let job_id := uuid4 E (trace w) in
  let w' := replay (creation_events E patient_name w) w in
  hgetall w' (Gateway.job_key job_id) !! "patient_name" = Some patient_name /\
  hgetall w' (Gateway.job_key job_id) !! "status" = Some "pending" /\
  hgetall w' (Gateway.job_key job_id) !! "progress" = Some "0" /\
  hgetall w' (Gateway.job_key job_id) !! "created_at" =
    Some (utcnow_iso E (trace w ++ [EUuid job_id])) /\
  hgetall w' (Gateway.job_key job_id) !! "error" =
    hgetall w (Gateway.job_key job_id) !! "error" /\
  lrange w' "processing_queue" = job_id :: lrange w "processing_queue" /\
  tasks w' = tasks w.
Proof.
  intros job_id w'. subst w'. unfold replay, creation_events. cbn [foldl]. fold job_id.
  rewrite !hgetall_record_event, !lrange_record_event, !tasks_record_event.
  rewrite !decide_True by done. rewrite !hset_fields_lookup. done.
Qed.

(** X5.  On an empty queue the loop only polls: each turn is one
    [BRPOP] that times out, nothing is logged, and Redis and the tasks
    stay as they are, for any number of turns. *)
Theorem consumer_idle_on_empty_queue (E : env) (w : world) (fuel : nat) :
  lrange w "processing_queue" = [] ->
  let o := run E (Worker.consume_processing_queue fuel) w in
  res o = Ok tt /\
  emitted o = replicate fuel (EBRPop "processing_queue" None) /\
  hashes (final o) = hashes w /\ lists (final o) = lists w /\ tasks (final o) = tasks w.
Proof.
  intros Hq. revert w Hq.
  induction fuel as [| fuel IH]; intros w Hq o; subst o; [by repeat split|].
  assert (Hturn : run E Worker.consume_iteration w =
            Outcome (Ok tt) (replay [EBRPop "processing_queue" None] w)
              [EBRPop "processing_queue" None]).
  { unfold Worker.consume_iteration.
    by rewrite run_try_except, run_consume_try_block, Hq. }
  cbn [Worker.consume_processing_queue]. rewrite run_bind, Hturn.
  cbv zeta. cbn [res final emitted].
  set (w' := replay _ w).
  destruct (IH w') as (Hr & He & Hh & Hl & Ht); [exact Hq|].
  cbv zeta in Hr, He, Hh, Hl, Ht.
  split; [exact Hr|]. split; [cbn [replicate app]; by rewrite He|].
  by rewrite Hh, Hl, Ht.
Qed.

Lemma consumer_idle_on_empty_queue_witness :
  emitted (run env_all_ok (Worker.consume_processing_queue 3) empty_world) =
    replicate 3 (EBRPop "processing_queue" None).
Proof.
  refine (proj1 (proj2 (consumer_idle_on_empty_queue env_all_ok empty_world 3 _))).
  reflexivity.
Defined.

(** X6.  A token whose record exists but has no patient_name ends the
    consumer and is lost: the loop, however many turns it had left,
    ends with the [NameError] of its handler, the token is off the
    queue, no task was dispatched for it, the tokens behind it stay on
    the queue, and no hash changed (the job stays as it was). *)
Theorem consumer_death_loses_token (E : env) (w : world) (token : string)
    (rest : list string) (fuel : nat) :
  lrange w "processing_queue" = rest ++ [token] ->
  hgetall w (Worker.job_key token) <> ∅ ->
  hgetall w (Worker.job_key token) !! "patient_name" = None ->
  let o := run E (Worker.consume_processing_queue (S fuel)) w in
  res o = Err name_error /\
  lrange (final o) "processing_queue" = rest /\
  tasks (final o) = tasks w /\
  hashes (final o) = hashes w.
Proof.
  intros Hq Hrec Hname o. subst o.
  assert (Htry : run E Worker.consume_try_block w =
            Outcome (Err (Exn "KeyError" "b'patient_name'"))
              (replay [EBRPop "processing_queue" (Some token);
                       EHGetAll (Worker.job_key token)] w)
              [EBRPop "processing_queue" (Some token); EHGetAll (Worker.job_key token)]).
  { rewrite run_consume_try_block, Hq, last_snoc. cbv zeta.
    rewrite bool_decide_eq_false_2 by done. by rewrite Hname. }
  cbn [Worker.consume_processing_queue]. rewrite run_bind.
  unfold Worker.consume_iteration.
  rewrite run_try_except, Htry. cbn [res final emitted].
  unfold Worker.consume_except. rewrite load_global_time.
  cbn [mbind prog_bind bind call run handle answer res final emitted fst snd].
  split; [done|].
  unfold replay. cbn [foldl].
  rewrite !lrange_record_event, !tasks_record_event.
  rewrite decide_True by done. rewrite Hq, removelast_last. done.
Qed.

Lemma consumer_death_loses_token_witness :
  lrange (final (run env_all_ok (Worker.consume_processing_queue 3) nameless_world))
    "processing_queue" = [].
Proof.
  refine (proj1 (proj2 (consumer_death_loses_token env_all_ok nameless_world "job-9" []
                          2 _ _ _))).
  - reflexivity.
  - intros H. apply (f_equal (fun h => h !! "status")) in H. vm_compute in H. discriminate H.
  - vm_compute. reflexivity.
Defined.

(** X7.  Creation and consumption fit together: after the gateway has
    created a job on an empty queue, the next turn of the consumer
    dispatches exactly that job, under the identifier the gateway
    answered and with the patient name of the request, and leaves the
    queue empty and the hashes as creation left them. *)
Theorem created_job_is_dispatched (E : env) (w : world) (patient_name : string) :
  lrange w "processing_queue" = [] ->
  let w1 := final (run E (Gateway.process_patient patient_name) w) in
  let o := run E Worker.consume_iteration w1 in
  res o = Ok tt /\
  tasks (final o) = tasks w ++ [(uuid4 E (trace w), patient_name)] /\
  lrange (final o) "processing_queue" = [] /\
  hashes (final o) = hashes w1.
Proof.
  intros Hq w1 o. subst o w1. rewrite run_process_patient. cbn [final].
  destruct (created_world E w patient_name) as (Hn & _ & _ & _ & _ & Hl & Ht).
  cbv zeta in Hn, Hl, Ht. rewrite Hq in Hl.
  set (w1 := replay (creation_events E patient_name w) w) in *.
  rewrite (run_consume_iteration_dispatch E w1 (uuid4 E (trace w)) patient_name []
             Hl Hn).
  cbv zeta. cbn [res final].
  destruct (replay_dispatch_world w1 (uuid4 E (trace w)) patient_name [] Hl)
    as (Hq' & Ht' & Hh').
  cbv zeta in Hq', Ht', Hh'. rewrite Ht' , Ht. done.
Qed.

Lemma created_job_is_dispatched_witness :
  tasks jane_dispatched = [("job-0", "Jane Doe")].
Proof.
  refine (proj1 (proj2 (created_job_is_dispatched env_all_ok empty_world "Jane Doe" _))).
  reflexivity.
Defined.

(** ** Reading back a number that [str] wrote *)

Lemma pretty_N_char_digit (d : N) :
  (d < 10)%N ->
  Python.digit_value (pretty_N_char d) = Some (Z.of_N d) /\
  Python.is_space (pretty_N_char d) = false /\
  Ascii.eqb (pretty_N_char d) "+" = false /\
  Ascii.eqb (pretty_N_char d) "-" = false.
Proof.
  intros Hd.
  assert (d = 0 \/ d = 1 \/ d = 2 \/ d = 3 \/ d = 4 \/ d = 5 \/ d = 6 \/ d = 7
          \/ d = 8 \/ d = 9)%N as Hcases by lia.
  repeat destruct Hcases as [-> | Hcases]; try subst d; by vm_compute.
Qed.

Lemma pretty_N_go_numeral (n : N) :
  (0 < n)%N ->
  forall s,
    (exists d t, (d < 10)%N /\ pretty_N_go n s = String (pretty_N_char d) t) /\
    Python.numeral (pretty_N_go n s) = Python.more_digits (Z.of_N n) s.
Proof.
  induction (N.lt_wf_0 n) as [n _ IH]. intros Hn s.
  rewrite pretty_N_go_step by done.
  assert (Hmod : (n `mod` 10 < 10)%N) by (apply N.mod_lt; lia).
  destruct (pretty_N_char_digit _ Hmod) as (Hdig & _).
  destruct (decide (n < 10)%N) as [Hsmall | Hbig].
  - rewrite N.div_small, pretty_N_go_0 by done. split; [by eauto|].
    cbn [Python.numeral]. rewrite Hdig. by rewrite N.mod_small.
  - assert (Hdiv : (0 < n `div` 10)%N) by (apply N.div_str_pos; lia).
    destruct (IH (n `div` 10)%N) with (s := String (pretty_N_char (n `mod` 10)) s)
      as [Hhead Hnum]; [by apply N.div_lt | done |].
    split; [exact Hhead|]. rewrite Hnum.
    cbn [Python.more_digits]. rewrite Hdig. f_equal.
    rewrite (N.div_mod n 10) at 3 by done. lia.
Qed.

Lemma int_str (n : Z) : Python.int (pretty n) = Ok n.
Proof.
  assert (Hpos : forall p : positive,
            exists d t, (d < 10)%N /\ pretty (N.pos p) = String (pretty_N_char d) t /\
                        Python.numeral (pretty (N.pos p)) = Some (Z.pos p, EmptyString)).
  { intros p. unfold pretty, pretty_N. rewrite decide_False by done.
    destruct (pretty_N_go_numeral (N.pos p)) with (s := EmptyString)
      as [(d & t & Hd & Hhead) Hnum]; [done|].
    exists d, t. by rewrite Hnum. }
  unfold Python.int, Python.int_literal.
  destruct n as [| p | p]; [done | |].
  - change (pretty (Z.pos p)) with (pretty (N.pos p)).
    destruct (Hpos p) as (d & t & Hd & Hhead & Hnum).
    destruct (pretty_N_char_digit d Hd) as (_ & Hsp & Hplus & Hminus).
    rewrite Hhead in *. cbn [Python.lstrip]. rewrite Hsp, Hplus, Hminus, Hnum.
    cbn [Python.lstrip]. reflexivity.
  - change (pretty (Z.neg p)) with (String "-" (pretty (N.pos p))).
    destruct (Hpos p) as (d & t & Hd & Hhead & Hnum).
    cbn [Python.lstrip]. change (Python.is_space "-") with false. cbv iota.
    change (Ascii.eqb "-" "+") with false. change (Ascii.eqb "-" "-") with true.
    cbv iota. rewrite Hnum. cbn [Python.lstrip]. reflexivity.
Qed.

(** ** The status query *)

Lemma HTTPException_class (status_code : Z) (detail : string) :
  exn_class (Gateway.HTTPException status_code detail) = "HTTPException".
Proof. reflexivity. Qed.

Lemma int_error_class (s : string) (e : exn) :
  Python.int s = Err e -> exn_class e = "ValueError".
Proof. unfold Python.int. destruct (Python.int_literal s); by intros [= <-]. Qed.

Lemma progress_value_error_class (job_data : gmap string string) (e : exn) :
  Gateway.progress_value job_data = Err e -> exn_class e = "ValueError".
Proof.
  unfold Gateway.progress_value. destruct (job_data !! "progress"); [|done].
  apply int_error_class.
Qed.

(** What [get_job_status] comes to, by the record it finds. *)
Lemma run_get_job_status (E : env) (w : world) (job_id : string) :
  run E (Gateway.get_job_status job_id) w =
  let job_data := hgetall w (Gateway.job_key job_id) in
  let seen := [EHGetAll (Gateway.job_key job_id)] in
  if bool_decide (job_data = ∅)
  then Outcome (Err (Gateway.HTTPException 404 "Job not found")) (replay seen w) seen
  else
    match Gateway.progress_value job_data with
    | Ok progress =>
        Outcome
          (Ok [("job_id", JStr job_id);
               ("status", JStr (default "unknown" (job_data !! "status")));
               ("progress", JNum progress);
               ("patient_name", Gateway.get job_data "patient_name");
               ("created_at", Gateway.get job_data "created_at");
               ("error", Gateway.reported_error job_data)])
          (replay seen w) seen
    | Err e =>
        let evs := seen ++ [ELog ERROR ("Error getting job status: " +:+ exn_str e)] in
        Outcome (Err (Gateway.HTTPException 500 (exn_str e))) (replay evs w) evs
    end.
Proof.
  unfold Gateway.get_job_status. rewrite run_try_except, run_bind, run_call.
  cbn [res final emitted answer fst snd]. cbv zeta.
  destruct (bool_decide (hgetall w (Gateway.job_key job_id) = ∅)); [done|].
  rewrite run_bind. unfold Gateway.progress_of.
  destruct (Gateway.progress_value (hgetall w (Gateway.job_key job_id)))
    as [progress | e] eqn:Hp; [done|].
  cbn [run res final emitted app].
  by rewrite (progress_value_error_class _ _ Hp).
Qed.

Lemma hgetall_lookup_nonempty (w : world) (key f v : string) :
  hgetall w key !! f = Some v -> bool_decide (hgetall w key = ∅) = false.
Proof.
  intros Hf. apply bool_decide_eq_false_2. intros Hempty.
  rewrite Hempty in Hf. by rewrite lookup_empty in Hf.
Qed.

(** The answer of [get_job_status] for a record with a status and a
    progress that reads as a number. *)
Lemma res_get_job_status (E : env) (w : world) (job_id status text : string) (progress : Z) :
  job_record w job_id !! "status" = Some status ->
  job_record w job_id !! "progress" = Some text ->
  Python.int text = Ok progress ->
  run E (Gateway.get_job_status job_id) w =
  Outcome
    (Ok [("job_id", JStr job_id); ("status", JStr status); ("progress", JNum progress);
         ("patient_name", Gateway.get (job_record w job_id) "patient_name");
         ("created_at", Gateway.get (job_record w job_id) "created_at");
         ("error", Gateway.reported_error (job_record w job_id))])
    (replay [EHGetAll (Gateway.job_key job_id)] w) [EHGetAll (Gateway.job_key job_id)].
Proof.
  unfold job_record. rewrite <- gateway_job_key. intros Hs Hp Hint.
  rewrite run_get_job_status. cbv zeta.
  rewrite (hgetall_lookup_nonempty _ _ _ _ Hs).
  unfold Gateway.progress_value. by rewrite Hp, Hint, Hs.
Qed.

(** X8.  The status query for a job without a record raises the
    [HTTPException] with status 404 and detail "Job not found" as it
    is, not turned into a 500; it logs nothing and changes no hash. *)
Theorem status_of_unknown_job (E : env) (w : world) (job_id : string) :
  hgetall w (Gateway.job_key job_id) = ∅ ->
  let o := run E (Gateway.get_job_status job_id) w in
  res o = Err (Exn "HTTPException" "404: Job not found") /\
  emitted o = [EHGetAll (Gateway.job_key job_id)] /\
  hashes (final o) = hashes w.
Proof.
  intros Hempty o. subst o. rewrite run_get_job_status. cbv zeta.
  by rewrite Hempty, bool_decide_eq_true_2.
Qed.

Lemma status_of_unknown_job_witness :
  res (run env_all_ok (Gateway.get_job_status "job-1") jane_completed) =
    Err (Exn "HTTPException" "404: Job not found").
Proof.
  refine (proj1 (status_of_unknown_job env_all_ok jane_completed "job-1" _)).
  vm_compute. reflexivity.
Defined.


(** X10.  Right after its creation a job is reported as pending at
    progress 0, with the patient name of the request and the creation
    time; error is whatever the record under that identifier held
    before (nothing, for a new identifier). *)
Theorem status_after_create (E : env) (w : world) (patient_name : string) :
  let job_id := uuid4 E (trace w) in
  let w' := final (run E (Gateway.process_patient patient_name) w) in
  res (run E (Gateway.get_job_status job_id) w') =
  Ok [("job_id", JStr job_id); ("status", JStr "pending"); ("progress", JNum 0);
      ("patient_name", JStr patient_name);
      ("created_at", JStr (utcnow_iso E (trace w ++ [EUuid job_id])));
      ("error", Gateway.reported_error (job_record w job_id))].
Proof.
  intros job_id w'. subst w'. rewrite run_process_patient. cbn [final].
  destruct (created_world E w patient_name) as (Hn & Hs & Hp & Hc & He & _).
  cbv zeta in Hn, Hs, Hp, Hc, He. fold job_id in Hn, Hs, Hp, Hc, He.
  rewrite gateway_job_key in Hn, Hs, Hp, Hc, He.
  set (w' := replay (creation_events E patient_name w) w) in *.
  rewrite (res_get_job_status E w' job_id "pending" "0" 0 Hs Hp eq_refl).
  cbn [res]. unfold Gateway.get, Gateway.reported_error, job_record.
  by rewrite Hn, Hc, He.
Qed.

(** The record a run of the pipeline leaves. *)
Lemma pipeline_final_record (E : env) (w : world) (j n : string) :
  let o := run E (Worker.process_patient_pipeline j n) w in
  let h := job_record (final o) j in
  match res o with
  | Ok _ =>
      h !! "status" = Some "completed" /\ h !! "progress" = Some (pretty 100) /\
      h !! "error" = job_record w j !! "error"
  | Err e =>
      h !! "status" = Some "failed" /\ h !! "error" = Some (exn_str e) /\
      exn_str e ∈ failure_messages /\
      exists p, p ∈ [10; 25; 50; 75] /\ h !! "progress" = Some (pretty p)
  end.
Proof.
  intros o h. subst o h. rewrite job_record_final.
  pose proof (pipeline_actions E j n w) as Hshape.
  destruct (res (run E (Worker.process_patient_pipeline j n) w)) as [v | e] eqn:Hres.
  - remember (Ok v) as r eqn:Hr.
    remember (actions (emitted (run E (Worker.process_patient_pipeline j n) w))) as acts.
    shape_cases Hshape; simplify_eq.
    cbn [foldl status_write]. rewrite !decide_True by reflexivity.
    rewrite !hset_fields_lookup. done.
  - remember (Err e) as r eqn:Hr.
    remember (actions (emitted (run E (Worker.process_patient_pipeline j n) w))) as acts.
    shape_cases Hshape; simplify_eq.
    all: cbn [foldl app status_write failure_write stage_failed exn_str].
    all: rewrite !decide_True by reflexivity.
    all: rewrite !hset_fields_lookup.
    all: split; [reflexivity|]; split; [reflexivity|].
    all: split; [unfold failure_messages; rewrite !elem_of_cons; tauto|].
    + exists 10. split; [rewrite !elem_of_cons; tauto | reflexivity].
    + exists 25. split; [rewrite !elem_of_cons; tauto | reflexivity].
    + exists 50. split; [rewrite !elem_of_cons; tauto | reflexivity].
    + exists 75. split; [rewrite !elem_of_cons; tauto | reflexivity].
Qed.

(** X11.  After any run of the pipeline the status query succeeds.
    When the run returned, it reports completed at progress 100; when
    the run raised [e], it reports failed, a progress among 10, 25, 50
    and 75, and as error the message of [e], one of the four messages
    of the pipeline.  patient_name and created_at are those of the
    record before the run. *)
Theorem status_after_pipeline (E : env) (w : world) (job_id patient_name : string) :
  let o := run E (Worker.process_patient_pipeline job_id patient_name) w in
  let reported := res (run E (Gateway.get_job_status job_id) (final o)) in
  let old := job_record w job_id in
  match res o with
  | Ok _ =>
      reported =
      Ok [("job_id", JStr job_id); ("status", JStr "completed"); ("progress", JNum 100);
          ("patient_name", Gateway.get old "patient_name");
          ("created_at", Gateway.get old "created_at");
          ("error", Gateway.reported_error old)]
  | Err e =>
      exists progress,
        progress ∈ [10; 25; 50; 75] /\
        exn_str e ∈ failure_messages /\
        reported =
        Ok [("job_id", JStr job_id); ("status", JStr "failed"); ("progress", JNum progress);
            ("patient_name", Gateway.get old "patient_name");
            ("created_at", Gateway.get old "created_at");
            ("error", JStr (exn_str e))]
  end.
Proof.
  intros o reported old. subst reported old.
  pose proof (pipeline_final_record E w job_id patient_name) as Hrec.
  assert (Hname : job_record (final o) job_id !! "patient_name" =
                  job_record w job_id !! "patient_name").
  { apply pipeline_frame. rewrite !elem_of_cons, elem_of_nil. intuition discriminate. }
  assert (Hcreated : job_record (final o) job_id !! "created_at" =
                     job_record w job_id !! "created_at").
  { apply pipeline_frame. rewrite !elem_of_cons, elem_of_nil. intuition discriminate. }
  cbv zeta in Hrec. fold o in Hrec.
  destruct (res o) as [v | e].
  - destruct Hrec as (Hs & Hp & He).
    rewrite (res_get_job_status E (final o) job_id _ _ 100 Hs Hp (int_str 100)).
    cbn [res]. unfold Gateway.get, Gateway.reported_error.
    by rewrite Hname, Hcreated, He.
  - destruct Hrec as (Hs & He & Hmsg & p & Hin & Hp).
    exists p. split; [exact Hin|]. split; [exact Hmsg|].
    rewrite (res_get_job_status E (final o) job_id _ _ p Hs Hp (int_str p)).
    cbn [res]. unfold Gateway.get, Gateway.reported_error.
    rewrite Hname, Hcreated, He.
    assert (Hne : String.eqb (exn_str e) "" = false).
    { unfold failure_messages in Hmsg. rewrite !elem_of_cons, elem_of_nil in Hmsg.
      destruct Hmsg as [-> | [-> | [-> | [-> | []]]]]; reflexivity. }
    by rewrite Hne.
Qed.



(** ** Splitting a key at its colons *)

Lemma prefix_colon (c : ascii) (s : string) :
  String.prefix ":" (String c s) = Ascii.eqb ":" c.
Proof.
  cbn [String.prefix]. destruct (ascii_dec ":" c) as [<- | Hne].
  - by destruct s.
  - symmetry. by apply Ascii.eqb_neq.
Qed.

Lemma contains_colon_cons (c : ascii) (s : string) :
  Python.contains ":" (String c s) = Ascii.eqb ":" c || Python.contains ":" s.
Proof.
  unfold Python.contains. cbn [String.index]. rewrite prefix_colon.
  destruct (Ascii.eqb ":" c); [done|]. by destruct (String.index 0 ":" s).
Qed.

Lemma append_assoc_char (piece : string) (c : ascii) (s : string) :
  (piece +:+ String c EmptyString) +:+ s = piece +:+ String c s.
Proof.
  induction piece as [| c' piece IH]; [done|].
  change (String c' ((piece +:+ String c EmptyString) +:+ s) = String c' (piece +:+ String c s)).
  by rewrite IH.
Qed.

Lemma split_go_colon_free (s piece : string) :
  Python.contains ":" s = false ->
  Python.split_go ":" 0 piece s = [piece +:+ s].
Proof.
  revert piece. induction s as [| c s IH]; intros piece Hs.
  - cbn [Python.split_go]. f_equal. induction piece as [| c' piece IHp]; [done|].
    change (String c' piece = String c' (piece +:+ EmptyString)). by rewrite <- IHp.
  - rewrite contains_colon_cons in Hs. apply orb_false_iff in Hs as [Hc Hs].
    cbn [Python.split_go]. rewrite prefix_colon, Hc, (IH _ Hs).
    by rewrite append_assoc_char.
Qed.


Lemma split_job_key (job_id : string) :
  Python.split ":" (Gateway.job_key job_id) = "job" :: Python.split_go ":" 0 "" job_id.
Proof.
  change (Gateway.job_key job_id)
    with (String "j" (String "o" (String "b" (String ":" job_id)))).
  unfold Python.split. cbn [Python.split_go]. by rewrite !prefix_colon.
Qed.

Lemma split_job_key_colon_free (job_id : string) :
  Python.contains ":" job_id = false ->
  Python.split ":" (Gateway.job_key job_id) !! 1%nat = Some job_id.
Proof. intros Hfree. by rewrite split_job_key, (split_go_colon_free _ _ Hfree). Qed.

(** ** One turn of the loop of [list_jobs] *)







Lemma store_replay_queries (evs : list event) (w : world) :
  Forall query_event evs ->
  hashes (replay evs w) = hashes w /\ lists (replay evs w) = lists w /\
  tasks (replay evs w) = tasks w.
Proof.
  unfold replay. revert w. induction evs as [| ev evs IH]; intros w Hall; [done|].
  inversion Hall as [| ? ? Hev Hrest]; subst. cbn [foldl].
  destruct (IH (record_event w ev) Hrest) as (-> & -> & ->). by destruct ev.
Qed.




(** ** The queries only read *)

Lemma performs_get_job_status (job_id : string) :
  performs query_effect (Gateway.get_job_status job_id).
Proof.
  unfold Gateway.get_job_status. apply performs_try_except.
  - apply performs_bind; [by apply performs_call|]. intros job_data.
    destruct (bool_decide (job_data = ∅)); [done|].
    apply performs_bind; [|done]. unfold Gateway.progress_of.
    by destruct (Gateway.progress_value job_data).
  - intros e. destruct (String.eqb (exn_class e) "HTTPException"); [done|].
    apply performs_bind; [by apply performs_call | done].
Qed.

Lemma performs_list_jobs_loop (job_keys : list string) (jobs : list json) :
  performs query_effect (Gateway.list_jobs_loop job_keys jobs).
Proof.
  revert jobs. induction job_keys as [| key job_keys IH]; intros jobs; [done|].
  cbn [Gateway.list_jobs_loop]. apply performs_bind; [|intros entry; apply IH].
  unfold Gateway.list_jobs_entry.
  apply performs_bind; [by apply performs_call|]. intros job_data.
  apply performs_bind; [by destruct (Python.split ":" key !! 1%nat)|]. intros job_id.
  apply performs_bind; [|done]. unfold Gateway.progress_of.
  by destruct (Gateway.progress_value job_data).
Qed.

Lemma performs_list_jobs (job_keys : list string) :
  performs query_effect (Gateway.list_jobs job_keys).
Proof.
  unfold Gateway.list_jobs. apply performs_try_except.
  - apply performs_bind; [apply performs_list_jobs_loop | done].
  - intros e. apply performs_bind; [by apply performs_call | done].
Qed.

Lemma query_run_reads (E : env) {R : Type} (p : prog R) (w : world) :
  performs query_effect p ->
  Forall query_event (emitted (run E p w)) /\
  hashes (final (run E p w)) = hashes w /\
  lists (final (run E p w)) = lists w /\
  tasks (final (run E p w)) = tasks w.
Proof.
  intros Hp.
  assert (Hev : Forall query_event (emitted (run E p w))).
  { apply (performs_emitted query_effect); [|done]. intros X c w' Hc. by destruct c. }
  split; [exact Hev|]. rewrite run_final. by apply store_replay_queries.
Qed.

(** X15.  The two queries only read: whatever the job_id, the keys and
    the world, and however they end, [get_job_status] and [list_jobs]
    perform nothing but [HGETALL] and log lines, and leave the hashes,
    the queues and the dispatched tasks as they were. *)
Theorem queries_never_write (E : env) (w : world) (job_id : string)
    (job_keys : list string) :
  let status := run E (Gateway.get_job_status job_id) w in
  let listing := run E (Gateway.list_jobs job_keys) w in
  (Forall query_event (emitted status) /\
   hashes (final status) = hashes w /\ lists (final status) = lists w /\
   tasks (final status) = tasks w) /\
  (Forall query_event (emitted listing) /\
   hashes (final listing) = hashes w /\ lists (final listing) = lists w /\
   tasks (final listing) = tasks w).
Proof.
  split; apply query_run_reads; [apply performs_get_job_status | apply performs_list_jobs].
Qed.

(** ** The FDF file *)











(** ** The completion report *)

Lemma completion_lists (extracted_data : gmap string string) :
  foldl (fun lists field =>
           if FormService.provided extracted_data field
           then (lists.1 ++ [field], lists.2)
           else (lists.1, lists.2 ++ [field]))
    ([], []) FormService.required_fields =
  (List.filter (FormService.provided extracted_data) FormService.required_fields,
   List.filter (fun field => negb (FormService.provided extracted_data field))
     FormService.required_fields).
Proof.
  unfold FormService.required_fields. cbn [foldl List.filter].
  by destruct (FormService.provided extracted_data "patient_name"),
    (FormService.provided extracted_data "medication"),
    (FormService.provided extracted_data "diagnosis"),
    (FormService.provided extracted_data "provider"),
    (FormService.provided extracted_data "insurance").
Qed.

Lemma filter_split_length {A : Type} (f : A -> bool) (l : list A) :
  (length (List.filter f l) + length (List.filter (fun x => negb (f x)) l) = length l)%nat.
Proof.
  induction l as [| x l IH]; [done|]. cbn [List.filter].
  destruct (f x); cbn [negb length]; lia.
Qed.

Lemma completion_rate_exact (filled : nat) :
  (filled <= 5)%nat ->
  let rate :=
    PrimFloat.mul (PrimFloat.div (Python.float_of_len filled) (Python.float_of_len 5))
      (Python.float_of_len 100) in
  rate = Python.float_of_len (20 * filled) /\
  Python.format_1f rate = pretty (20 * filled)%nat +:+ ".0".
Proof.
  intros Hle.
  assert (filled = 0 \/ filled = 1 \/ filled = 2 \/ filled = 3 \/ filled = 4 \/ filled = 5)%nat
    as Hcases by lia.
  repeat destruct Hcases as [-> | Hcases]; try subst filled;
    split; vm_compute; reflexivity.
Qed.

(** X17.  In the completion report, filled_fields and missing_fields
    split the five required fields, each in the order of
    [required_fields]: a field is filled when the data hold it with a
    text that is not empty.  completion_rate is exactly 20 times the
    number of filled fields (no rounding error comes in), the summary
    prints that number with ".0", and total_extracted is the size of
    the data. *)
Theorem completion_report_counts (extracted_data : gmap string string) :
  let report := FormService.generate_completion_report extracted_data in
  let filled := length (FormService.filled_fields report) in
  FormService.filled_fields report =
    List.filter (FormService.provided extracted_data) FormService.required_fields /\
  FormService.missing_fields report =
    List.filter (fun field => negb (FormService.provided extracted_data field))
      FormService.required_fields /\
  (filled + length (FormService.missing_fields report) = 5)%nat /\
  FormService.completion_rate report = Python.float_of_len (20 * filled) /\
  FormService.summary report =
    "Completed " +:+ pretty filled +:+ "/5 required fields (" +:+ pretty (20 * filled)%nat
    +:+ ".0%)" /\
  FormService.total_extracted report = size extracted_data.
Proof.
  unfold FormService.generate_completion_report. rewrite completion_lists.
  cbv zeta.
  cbn [fst snd FormService.filled_fields FormService.missing_fields
       FormService.completion_rate FormService.summary FormService.total_extracted].
  pose proof (filter_split_length (FormService.provided extracted_data)
                FormService.required_fields) as Hlen.
  change (length FormService.required_fields) with 5%nat in *.
  set (filled := length (List.filter _ _)) in *.
  destruct (completion_rate_exact filled) as [Hrate Htext]; [lia|].
  cbv zeta in Hrate, Htext.
  split; [reflexivity|]. split; [reflexivity|]. split; [exact Hlen|].
  split; [exact Hrate|]. split; [|reflexivity].
  rewrite Htext. change (pretty 5%nat) with "5".
  rewrite !append_assoc. reflexivity.
Qed.

(** ** The values of the fields *)

(** X18.  [get_field_value_for_pdftk] answers the empty text or the
    value the form data hold under one of eleven keys (patient_name,
    medication, dosage, schedule, insurance, diagnosis, provider, date,
    ndc_code, generic_name, administration): no other key of the form
    data ever reaches the form.  The first rule wins over all others: a
    field whose lower-cased name contains "name" gets the patient's
    name, whatever else its name contains. *)
Theorem field_value_sources (field_name_lower original_field_name : string)
    (form_data : gmap string string) :
  let value :=
    FormService.get_field_value_for_pdftk field_name_lower original_field_name form_data in
  (value = "" \/ exists key, key ∈ keys_read /\ form_data !! key = Some value) /\
  (Python.contains "name" field_name_lower = true ->
   value = default "" (form_data !! "patient_name")).
Proof.
  intros value. subst value. unfold FormService.get_field_value_for_pdftk.
  assert (Hget : forall key, key ∈ keys_read ->
            FormService.get form_data key = "" \/
            exists key', key' ∈ keys_read /\
                         form_data !! key' = Some (FormService.get form_data key)).
  { intros key Hkey. unfold FormService.get.
    destruct (form_data !! key) as [v|] eqn:Hv; [right; by exists key | by left]. }
  split.
  - repeat match goal with
           | |- context [if ?b then _ else _] => destruct b
           end;
      try (by left);
      apply Hget; unfold keys_read; rewrite !elem_of_cons; tauto.
  - intros Hname. unfold FormService.any_in at 1. cbn [existsb].
    rewrite Hname, !orb_true_r. reflexivity.
Qed.

(** ** The referral package *)

Lemma existsb_filter_length {A : Type} (f : A -> bool) (l : list A) :
  existsb f l = true <-> (0 < length (List.filter f l))%nat.
Proof.
  induction l as [| x l IH]; cbn [existsb List.filter length]; [split; [done | lia]|].
  destruct (f x); cbn [orb length]; [split; [lia | done] | exact IH].
Qed.

(** X19.  For a document that opens, the analysis of the referral
    package has one entry per page, numbered from 0 in order;
    scanned_pages and text_pages add up to total_pages; requires_ocr
    holds exactly when some page counts as scanned; and a page without
    text always counts as scanned. *)
Theorem referral_summary_counts {text : Type} (strip : text -> text) (len : text -> nat)
    (pages : list (DocumentService.page text)) :
  exists a,
    DocumentService.analyze_referral_package strip len (Ok pages) = inl a /\
    DocumentService.total_pages a = length pages /\
    length (DocumentService.pages_info a) = length pages /\
    (DocumentService.scanned_pages (DocumentService.analysis_summary a)
     + DocumentService.text_pages (DocumentService.analysis_summary a)
     = DocumentService.total_pages a)%nat /\
    (DocumentService.requires_ocr (DocumentService.analysis_summary a) = true <->
     (0 < DocumentService.scanned_pages (DocumentService.analysis_summary a))%nat) /\
    (forall (i : nat) info,
        DocumentService.pages_info a !! i = Some info ->
        DocumentService.page_number info = i /\
        (DocumentService.has_text info = false -> DocumentService.is_scanned info = true)).
Proof.
  eexists. split; [reflexivity|].
  cbn [DocumentService.total_pages DocumentService.pages_info
       DocumentService.analysis_summary DocumentService.scanned_pages
       DocumentService.text_pages DocumentService.requires_ocr].
  split; [done|]. split; [by rewrite length_imap|]. split.
  { rewrite filter_split_length. by rewrite length_imap. }
  split; [apply existsb_filter_length|].
  intros i info Hi. rewrite list_lookup_imap in Hi.
  destruct (pages !! i) as [p|]; [|done]. cbn in Hi. injection Hi as <-.
  unfold DocumentService.analyze_page.
  cbn [DocumentService.page_number DocumentService.has_text DocumentService.is_scanned].
  split; [done|]. intros Hno. apply Nat.ltb_ge in Hno. apply Nat.ltb_lt. lia.
Qed.

(** ** What the consumer may do *)

Lemma performs_consume_iteration : performs consumer_effect Worker.consume_iteration.
Proof.
  unfold Worker.consume_iteration. apply performs_try_except.
  - unfold Worker.consume_try_block.
    apply performs_bind; [by apply performs_call|]. intros [[queue_name job_id]|]; [|done].
    apply performs_bind; [by apply performs_call|]. intros job_data.
    destruct (bool_decide (job_data = ∅)); [done|].
    destruct (job_data !! "patient_name"); [by apply performs_call | done].
  - intros e. unfold Worker.consume_except.
    apply performs_bind; [by apply performs_call|]. intros _.
    by rewrite load_global_time.
Qed.

Lemma performs_consume_processing_queue (fuel : nat) :
  performs consumer_effect (Worker.consume_processing_queue fuel).
Proof.
  induction fuel as [| fuel IH]; [done|]. cbn [Worker.consume_processing_queue].
  apply performs_bind; [apply performs_consume_iteration | by intros _].
Qed.

(** X20.  The consumer never writes to a job and never sleeps: whatever
    the world and the number of turns, and however the loop ends, it
    performs nothing but pops from "processing_queue" with a timeout of
    10 seconds, reads of hashes, dispatches and error lines; every hash
    is left as it was, so a job stays pending until its pipeline
    starts. *)
Theorem consumer_never_writes (E : env) (w : world) (fuel : nat) :
  let o := run E (Worker.consume_processing_queue fuel) w in
  performs consumer_effect (Worker.consume_processing_queue fuel) /\
  Forall consumer_event (emitted o) /\
  (forall secs, ESleep secs ∉ emitted o) /\
  hashes (final o) = hashes w.
Proof.
  intros o.
  pose proof (performs_consume_processing_queue fuel) as Hp.
  assert (Hev : Forall consumer_event (emitted o)).
  { apply (performs_emitted consumer_effect); [|exact Hp].
    intros X c w' Hc. destruct c as [| | | queue ? | | | | lvl ? | |]; try done.
    destruct Hc as [-> _]. cbn [answer].
    by destruct (last (lrange w' "processing_queue")). }
  split; [exact Hp|]. split; [exact Hev|]. split.
  - intros secs Hin. rewrite Forall_forall in Hev. by apply Hev in Hin.
  - subst o. rewrite run_final.
    set (evs := emitted _) in *. clearbody evs. clear Hp. revert w.
    induction Hev as [| ev evs Hq _ IH]; intros w; [done|].
    unfold replay. cbn [foldl]. fold (replay evs (record_event w ev)).
    rewrite IH. by destruct ev as [| | | ? [?|] | | | | | |].
Qed.

(** ** Waiting jobs *)

(** X21.  In the system started from an empty Redis, with a generator
    that never repeats an identifier, a job identifier is never waiting
    twice: in every state the system can reach it occurs at most once
    on the queue and among the dispatched tasks not yet started, taken
    together.  And a job that waits there has been created and has not
    been run before: its record has no error and is neither completed
    nor failed. *)
Theorem waiting_at_most_once (E : env) (s : system) (job_id : string) :
  fresh_uuids E ->
  rtc (step E) initial s ->
  (tokens_at_rest job_id (sys_world s) <= 1)%nat /\
  ((0 < tokens_at_rest job_id (sys_world s))%nat ->
   born job_id (sys_world s) /\ clean (job_record (sys_world s) job_id)).
Proof.
  intros Hfresh Hrtc.
  destruct (inv_reachable E Hfresh job_id s Hrtc) as [holder Hinv].
  pose proof (inv_single _ _ _ Hinv) as Hone.
  split; [unfold tokens in Hone; lia|].
  intros Hwaits.
  assert (Hall : tokens job_id s holder = 1%nat).
  { unfold tokens in *. destruct holder; lia. }
  split; [by apply (inv_born _ _ _ Hinv) | apply (inv_clean _ _ _ Hinv); by left].
Qed.

Lemma waiting_at_most_once_witness :
  tokens_at_rest "x" (sys_world (schedule env_fresh jane_queued initial)) = 1%nat /\
  clean (job_record (sys_world (schedule env_fresh jane_queued initial)) "x").
Proof.
  assert (Hone : tokens_at_rest "x" (sys_world (schedule env_fresh jane_queued initial))
                 = 1%nat).
  { vm_compute. reflexivity. }
  split; [exact Hone|].
  refine (proj2 (proj2 (waiting_at_most_once env_fresh
                          (schedule env_fresh jane_queued initial) "x"
                          env_fresh_fresh (schedule_rtc env_fresh jane_queued initial)) _)).
  rewrite Hone. exact (le_n 1).
Defined.
